(** * omarchy-firefox-theme: the native messaging host [src/native/main.c]

    A shallow embedding of the host program and the properties of its
    parts: the JSON string escaper ([json_escape]), the theme file
    reader ([get_chromium_theme]), the message encoder ([send_msg]) and
    the inotify loop of [main].

    Conventions of the embedding.
    - A C [char] is a [byte]; a C array is a [list byte] of the array's
      size, written with stdpp's list insert [<[i:=c]>]; the C string held
      by an array is the bytes before its first NUL ([cstr]).
    - Array indices ([size_t], [int]) are [nat]: every index the program
      forms is bounded by a buffer size of at most 4096, so no machine
      arithmetic wraps.  Values returned as [int] or [ssize_t] are [Z].
    - [errno], the standard streams and the file system are fields of an
      explicit [world] threaded through the calls. *)

From Equations Require Import Equations.
From Stdlib Require Import ZArith NArith Lia List Bool.
From Stdlib Require Import Strings.String Strings.Byte.
From stdpp Require Import base tactics option list.

Import ListNotations.
Local Open Scope nat_scope.

(** ** Bytes and C strings *)

Abbreviation byte := Byte.byte.

#[global] Instance byte_eq_dec : EqDecision byte := Byte.byte_eq_dec.

Definition NUL : byte := x00.

(** The value of an [unsigned char]. *)
Definition uchar (c : byte) : N := Byte.to_N c.

(** A string literal of the source, as its bytes (without the NUL). *)
Definition lit (s : string) : list byte := list_byte_of_string s.

(** The C string stored in an array: the bytes before the first NUL. *)
Fixpoint cstr (buf : list byte) : list byte :=
  match buf with
  | [] => []
  | c :: rest => if decide (c = NUL) then [] else c :: cstr rest
  end.

Definition strlen (buf : list byte) : nat := length (cstr buf).

(** [dst[di++] = b] for each [b] of [bs], in order. *)
Fixpoint poke (dst : list byte) (di : nat) (bs : list byte) : list byte :=
  match bs with
  | [] => dst
  | b :: bs' => poke (<[di := b]> dst) (S di) bs'
  end.

(** ** [json_escape] *)

Definition hex : list byte := lit "0123456789abcdef".

(** [hex[i]] *)
Definition hex_at (i : N) : byte := nth (N.to_nat i) hex NUL.

(** The bytes the [switch] of [json_escape] stores for the input byte [c]. *)
Definition escape_byte (c : byte) : list byte :=
  match c with
  | x22 => [x5c; x22]            (* case quote *)
  | x5c => [x5c; x5c]            (* case backslash *)
  | x08 => [x5c; x62]            (* case backspace *)
  | x0c => [x5c; x66]            (* case form feed *)
  | x0a => [x5c; x6e]            (* case newline *)
  | x0d => [x5c; x72]            (* case carriage return *)
  | x09 => [x5c; x74]            (* case tab *)
  | _ =>
      if (uchar c <? 32)%N
      then [x5c; x75; x30; x30;
            hex_at (N.land (N.shiftr (uchar c) 4) 15);
            hex_at (N.land (uchar c) 15)]
      else [c]
  end.

(** The [while (si < src_len)] loop: [src] is the input not yet consumed,
    [di] the write index.  The result is the return value so far ([-1] on
    the early return, otherwise [di] at loop exit) and the destination. *)
Fixpoint json_escape_loop (src : list byte) (di : nat) (dst : list byte)
    (dst_size : nat) : option nat * list byte :=
  match src with
  | [] => (Some di, dst)
  | c :: src' =>
      if dst_size <=? di + 6 then (None, dst)
      else
        let bs := escape_byte c in
        json_escape_loop src' (di + length bs) (poke dst di bs) dst_size
  end.

(** [json_escape(src, src_len, dst, dst_size)] with [src_len] the length
    of [src] and [dst_size] given separately as in the source.  Both
    pointers are non-null at every call site.  The result is the
    [ssize_t] return value and the destination array afterwards. *)
Definition json_escape (src : list byte) (dst : list byte) (dst_size : nat)
    : Z * list byte :=
  if dst_size =? 0 then (-1, dst)%Z
  else
    match json_escape_loop src 0 dst dst_size with
    | (None, dst') => (-1, dst')%Z
    | (Some di, dst') =>
        if dst_size <=? di then (-1, dst')%Z
        else (Z.of_nat di, <[di := NUL]> dst')
    end.

(** The escaping of a whole sequence, byte by byte. *)
Definition escape_all (src : list byte) : list byte :=
  concat (map escape_byte src).

(** The least capacity with which [json_escape] succeeds on [src]: room
    for the terminator when there is nothing to escape, and otherwise 6
    bytes and the terminator beyond what precedes the last byte. *)
Definition needed_capacity (src : list byte) : nat :=
  match src with
  | [] => 1
  | _ => length (escape_all (removelast src)) + 7
  end.

(** ** Constants of the source and of the system headers *)

Definition CHROMIUM_THEME_MAX : nat := 12.
Definition STRING_MAX : nat := 256.
Definition MSG_MAX : nat := 512.
Definition INOTIFY_BUF_LEN : nat := 4096.
Definition THEME_DIR : list byte := lit "theme".

(** [errno.h] and [sys/inotify.h] of Linux. *)
Definition EINTR : Z := 4.
Definition EIO : Z := 5.
Definition EINVAL : Z := 22.
Definition ERANGE : Z := 34.
Definition IN_MOVED_TO : N := 128.
Definition IN_CREATE : N := 256.
(** [sizeof(struct inotify_event)]: [int wd; uint32_t mask, cookie, len]. *)
Definition EVENT_HEADER : nat := 16.

(** ** The world outside the program

    What the C library and the kernel answer is data of the environment.
    A failing call stores a positive error number in [errno]; a call
    that succeeds leaves [errno] alone. *)

(** The state of a path as [fopen] and [fgets] see it. *)
Inductive file : Type :=
| OpenFails (e : positive)          (* [fopen] returns NULL, [errno = e] *)
| ReadFails (e : positive)          (* opens; reading fails with [errno = e] *)
| Content (bytes : list byte).      (* opens; the stream holds [bytes] *)

(** The answer of [getpwuid]: an entry with its [pw_dir], or NULL with
    [errno] set or (no such entry) left as it was. *)
Inductive passwd : Type :=
| PwEntry (pw_dir : list byte)
| PwNull (e : option positive).

Record env : Type := {
  env_HOME : option (list byte);            (* [getenv("HOME")] *)
  env_passwd : passwd;                      (* [getpwuid(getuid())] *)
  env_opendir : list byte -> option positive;   (* [None]: the directory opens *)
  env_fopen : list byte -> file;            (* the files at start *)
  env_inotify_init : option positive;       (* [None]: a descriptor is returned *)
  env_notify_fd : nat;                      (* that descriptor *)
  env_add_watch : list byte -> option positive;
  env_strerror : Z -> list byte;            (* [strerror] *)
  env_writes : list (option (positive * nat));
                                            (* results of the successive
                                               [fwrite] and [fflush] calls on
                                               stdout; [None] or exhausted:
                                               success; [Some (e, k)]: failure
                                               with [errno = e] after [k]
                                               bytes went through *)
  env_garbage : list byte                   (* what uninitialised automatic
                                               arrays hold *)
}.

Record world : Type := {
  w_errno : Z;
  w_stdout : list byte;                     (* bytes handed to stdout *)
  w_stderr : list (list byte);              (* lines written to stderr *)
  w_writes : list (option (positive * nat));
  w_fopen : list byte -> file;
  w_closed : list Z;                        (* descriptors closed *)
  (* the file-scope objects of the source *)
  msg : list byte;
  esc_err : list byte;
  esc_syserr : list byte;
  notify_fd : Z
}.

Definition set_errno (e : Z) (w : world) : world :=
  {| w_errno := e; w_stdout := w_stdout w; w_stderr := w_stderr w;
     w_writes := w_writes w; w_fopen := w_fopen w; w_closed := w_closed w;
     msg := msg w; esc_err := esc_err w; esc_syserr := esc_syserr w;
     notify_fd := notify_fd w |}.

Definition set_buffers (m e1 e2 : list byte) (w : world) : world :=
  {| w_errno := w_errno w; w_stdout := w_stdout w; w_stderr := w_stderr w;
     w_writes := w_writes w; w_fopen := w_fopen w; w_closed := w_closed w;
     msg := m; esc_err := e1; esc_syserr := e2;
     notify_fd := notify_fd w |}.

Definition set_notify_fd (fd : Z) (w : world) : world :=
  {| w_errno := w_errno w; w_stdout := w_stdout w; w_stderr := w_stderr w;
     w_writes := w_writes w; w_fopen := w_fopen w; w_closed := w_closed w;
     msg := msg w; esc_err := esc_err w; esc_syserr := esc_syserr w;
     notify_fd := fd |}.

Definition set_fopen (fs : list byte -> file) (w : world) : world :=
  {| w_errno := w_errno w; w_stdout := w_stdout w; w_stderr := w_stderr w;
     w_writes := w_writes w; w_fopen := fs; w_closed := w_closed w;
     msg := msg w; esc_err := esc_err w; esc_syserr := esc_syserr w;
     notify_fd := notify_fd w |}.

Definition close (fd : Z) (w : world) : world :=
  {| w_errno := w_errno w; w_stdout := w_stdout w; w_stderr := w_stderr w;
     w_writes := w_writes w; w_fopen := w_fopen w;
     w_closed := w_closed w ++ [fd];
     msg := msg w; esc_err := esc_err w; esc_syserr := esc_syserr w;
     notify_fd := notify_fd w |}.

(** [fprintf(stderr, ...)] of one line. *)
Definition eprint (line : list byte) (w : world) : world :=
  {| w_errno := w_errno w; w_stdout := w_stdout w;
     w_stderr := w_stderr w ++ [line];
     w_writes := w_writes w; w_fopen := w_fopen w; w_closed := w_closed w;
     msg := msg w; esc_err := esc_err w; esc_syserr := esc_syserr w;
     notify_fd := notify_fd w |}.

(** [fwrite] of [bs] on stdout: [true] when all of it was handed to
    the stream; otherwise the call comes back short, only some of the
    bytes (fewer than all of them) having gone through, and [errno] is
    set. *)
Definition fwrite_stdout (bs : list byte) (w : world) : bool * world :=
  match w_writes w with
  | Some (e, k) :: rest =>
      (false,
       {| w_errno := Zpos e;
          w_stdout := w_stdout w ++ take (min k (length bs - 1)) bs;
          w_stderr := w_stderr w;
          w_writes := rest; w_fopen := w_fopen w; w_closed := w_closed w;
          msg := msg w; esc_err := esc_err w; esc_syserr := esc_syserr w;
          notify_fd := notify_fd w |})
  | rest =>
      (true,
       {| w_errno := w_errno w; w_stdout := w_stdout w ++ bs;
          w_stderr := w_stderr w;
          w_writes := tail rest; w_fopen := w_fopen w; w_closed := w_closed w;
          msg := msg w; esc_err := esc_err w; esc_syserr := esc_syserr w;
          notify_fd := notify_fd w |})
  end.

(** [fflush(stdout)]: a failure sets [errno]; the source does not look
    at the result. *)
Definition fflush_stdout (w : world) : world :=
  match w_writes w with
  | Some (e, _) :: rest =>
      {| w_errno := Zpos e; w_stdout := w_stdout w; w_stderr := w_stderr w;
         w_writes := rest; w_fopen := w_fopen w; w_closed := w_closed w;
         msg := msg w; esc_err := esc_err w; esc_syserr := esc_syserr w;
         notify_fd := notify_fd w |}
  | rest =>
      {| w_errno := w_errno w; w_stdout := w_stdout w; w_stderr := w_stderr w;
         w_writes := tail rest; w_fopen := w_fopen w; w_closed := w_closed w;
         msg := msg w; esc_err := esc_err w; esc_syserr := esc_syserr w;
         notify_fd := notify_fd w |}
  end.

(** Objects with static storage start zeroed; automatic arrays hold
    whatever the environment left there. *)
Definition static_array (n : nat) : list byte := replicate n NUL.

Definition auto_array (E : env) (n : nat) : list byte :=
  take n (env_garbage E ++ replicate n NUL).

Definition init_world (E : env) : world :=
  {| w_errno := 0; w_stdout := []; w_stderr := [];
     w_writes := env_writes E; w_fopen := env_fopen E; w_closed := [];
     msg := static_array MSG_MAX; esc_err := static_array MSG_MAX;
     esc_syserr := static_array MSG_MAX; notify_fd := (-1) |}.

(** ** [clean_exit] and the control monad

    A computation either goes on with a value or has called [exit]. *)

Inductive outcome (A : Type) : Type :=
| Running (a : A) (w : world)
| Exited (status : Z) (w : world).
Arguments Running {A} a w.
Arguments Exited {A} status w.

Definition M (A : Type) : Type := world -> outcome A.

#[global] Instance M_ret : MRet M := fun A a w => Running a w.

#[global] Instance M_bind : MBind M := fun A B k m w =>
  match m w with
  | Running a w' => k a w'
  | Exited st w' => Exited st w'
  end.

Definition get_errno : M Z := fun w => Running (w_errno w) w.
Definition modify (f : world -> world) : M unit := fun w => Running tt (f w).

Definition final_world {A} (o : outcome A) : world :=
  match o with Running _ w => w | Exited _ w => w end.

Definition exit_status {A} (o : outcome A) : option Z :=
  match o with Running _ _ => None | Exited st _ => Some st end.

Definition clean_exit {A} (err : Z) : M A :=
  fun w =>
    let w' := if (0 <=? notify_fd w)%Z then close (notify_fd w) w else w in
    Exited err w'.

(** ** Formatting *)

(** Storing a string and its terminating NUL at the start of an array. *)
Definition store (buf text : list byte) : list byte :=
  poke buf 0 (text ++ [NUL]).

(** [snprintf_werr(s, maxlen, format, ...)], where [text] is the expansion
    of the format with its arguments, so that [vsnprintf] returns
    [length text] ([needed < 0] does not arise for [%s] formats).  The
    pointers are non-null at every call site. *)
Definition snprintf_werr (s : list byte) (maxlen : nat) (text : list byte)
    : Z * list byte :=
  if maxlen =? 0 then (EINVAL, s)
  else if maxlen <=? length text then (ERANGE, store s (take (maxlen - 1) text))
  else (0%Z, store s text).

Definition dq : byte := x22.

(** A double-quoted key of the message formats. *)
Definition key (k : string) : list byte := [dq] ++ lit k ++ [dq].

(** The four formats of [send_msg], expanded. *)
Definition fmt_rgb_error (rgb e1 e2 : list byte) : list byte :=
  lit "{" ++ key "rgb" ++ lit ":[" ++ rgb ++ lit "]," ++ key "error"
    ++ lit ":" ++ [dq] ++ e1 ++ lit ": " ++ e2 ++ [dq] ++ lit "}".

Definition fmt_rgb (rgb : list byte) : list byte :=
  lit "{" ++ key "rgb" ++ lit ":[" ++ rgb ++ lit "]," ++ key "error"
    ++ lit ":null}".

Definition fmt_error (e1 e2 : list byte) : list byte :=
  lit "{" ++ key "rgb" ++ lit ":null," ++ key "error"
    ++ lit ":" ++ [dq] ++ e1 ++ lit ": " ++ e2 ++ [dq] ++ lit "}".

Definition fmt_null : list byte :=
  lit "{" ++ key "rgb" ++ lit ":null," ++ key "error" ++ lit ":null}".

(** ** [send_msg] *)

Definition byte_of_N (n : N) : byte := default NUL (Byte.of_N n).

(** The conversion to [uint32_t]. *)
Definition uint32 (n : nat) : N := (N.of_nat n mod 2 ^ 32)%N.

(** The four bytes of [htole32(len)] as they lie in memory, which is
    the order [fwrite] sends them in. *)
Definition htole32 (len : N) : list byte :=
  [byte_of_N (N.land len 255);
   byte_of_N (N.land (N.shiftr len 8) 255);
   byte_of_N (N.land (N.shiftr len 16) 255);
   byte_of_N (N.land (N.shiftr len 24) 255)].

Definition could_not_send (E : env) (code : Z) : list byte :=
  lit "could not send message: " ++ cstr (env_strerror E code).

(** The escaping of one of the two error texts into its scratch array,
    with the fallback literal when [json_escape] fails. *)
Definition escape_into (text : list byte) (scratch : list byte) : list byte :=
  let '(r, d) := json_escape (cstr text) scratch MSG_MAX in
  if (r <? 0)%Z
  then <[MSG_MAX - 1 := NUL]> (store d (lit "error too long"))
  else d.

(** [rgb] and [err] are [None] for a null pointer. *)
Definition send_msg (E : env) (rgb err : option (list byte)) (en : Z)
    (w : world) : world :=
  let esc_err0 := <[0 := NUL]> (esc_err w) in
  let esc_syserr0 := <[0 := NUL]> (esc_syserr w) in
  let msg0 := <[0 := NUL]> (msg w) in
  let syserr :=
    match err with Some _ => Some (env_strerror E en) | None => None end in
  let esc_err1 :=
    match err with Some e => escape_into e esc_err0 | None => esc_err0 end in
  let esc_syserr1 :=
    match syserr with
    | Some s => escape_into s esc_syserr0
    | None => esc_syserr0
    end in
  let text :=
    match rgb, err with
    | Some c, Some _ => fmt_rgb_error (cstr c) (cstr esc_err1) (cstr esc_syserr1)
    | Some c, None => fmt_rgb (cstr c)
    | None, Some _ => fmt_error (cstr esc_err1) (cstr esc_syserr1)
    | None, None => fmt_null
    end in
  let '(r, msg1) := snprintf_werr msg0 MSG_MAX text in
  let w1 := set_buffers msg1 esc_err1 esc_syserr1 w in
  if decide (r = 0%Z) then
    let len := uint32 (strlen msg1) in
    let '(ok1, w2) := fwrite_stdout (htole32 len) w1 in
    if ok1 then
      let '(ok2, w3) := fwrite_stdout (take (N.to_nat len) msg1) w2 in
      if ok2 then fflush_stdout w3
      else eprint (could_not_send E (w_errno w3)) w3
    else eprint (could_not_send E (w_errno w2)) w2
  else eprint (could_not_send E r) w1.

(** ** Paths *)

Definition dir_exists (E : env) (path : list byte) (w : world) : Z * world :=
  match env_opendir E path with
  | None => (0%Z, w)
  | Some e => (Zpos e, set_errno (Zpos e) w)
  end.

Definition file_exists (path : list byte) (w : world) : Z * world :=
  match w_fopen w path with
  | OpenFails e => (Zpos e, set_errno (Zpos e) w)
  | _ => (0%Z, w)
  end.

Definition get_home (E : env) (home : list byte) (w : world)
    : Z * list byte * world :=
  match env_HOME E with
  | Some h => (snprintf_werr home STRING_MAX (cstr h), w)
  | None =>
      match env_passwd E with
      | PwNull (Some e) => (Zpos e, home, set_errno (Zpos e) w)
      | PwNull None => (w_errno w, home, w)
      | PwEntry d => (snprintf_werr home STRING_MAX (cstr d), w)
      end
  end.

Definition get_current_path (E : env) (current_path : list byte) (w : world)
    : Z * list byte * world :=
  let '(res, home, w1) := get_home E (auto_array E STRING_MAX) w in
  if decide (res = 0%Z) then
    let '(r, current_path') :=
      snprintf_werr current_path STRING_MAX
        (cstr home ++ lit "/.config/omarchy/current") in
    if decide (r = 0%Z) then
      let '(d, w2) := dir_exists E (cstr current_path') w1 in
      (d, current_path', w2)
    else (r, current_path', w1)
  else (res, current_path, w1).

Definition get_chromium_theme_path (chromium_theme_path : list byte)
    (current_path : list byte) (w : world) : Z * list byte * world :=
  let '(r, path') :=
    snprintf_werr chromium_theme_path STRING_MAX
      (cstr current_path ++ lit "/theme/chromium.theme") in
  if decide (r = 0%Z) then
    let '(f, w1) := file_exists (cstr path') w in (f, path', w1)
  else (r, path', w).

(** ** [get_chromium_theme] *)

(** What [fgets(line, size, file)] takes from a stream holding [s]: at
    most [k = size - 1] bytes, up to and including the first newline. *)
Fixpoint fgets_bytes (k : nat) (s : list byte) : list byte :=
  match k, s with
  | S k', c :: s' =>
      if decide (c = x0a) then [c] else c :: fgets_bytes k' s'
  | _, _ => []
  end.

Definition is_digit_or_comma (c : byte) : bool :=
  ((48 <=? uchar c)%N && (uchar c <=? 57)%N) || bool_decide (c = x2c).

(** The [for] loop over [line[i]], [i < STRING_MAX]: [line] is the part
    of the array not yet visited, [j] the write index. *)
Fixpoint filter_loop (line : list byte) (j : nat) (chromium_theme : list byte)
    : nat * list byte :=
  match line with
  | [] => (j, chromium_theme)
  | c :: rest =>
      if decide (c = NUL) then (j, chromium_theme)
      else if is_digit_or_comma c then
        if CHROMIUM_THEME_MAX - 1 <=? j then (j, chromium_theme)
        else filter_loop rest (S j) (<[j := c]> chromium_theme)
      else filter_loop rest j chromium_theme
  end.

(** The result is the returned [int], the destination array afterwards
    and the world.  [fgets] at end of file returns NULL and does not
    touch [errno]; [fclose] is taken to succeed. *)
Definition get_chromium_theme (E : env) (chromium_theme : list byte)
    (chromium_theme_path : list byte) (w : world) : Z * list byte * world :=
  match w_fopen w chromium_theme_path with
  | OpenFails e => (Zpos e, chromium_theme, set_errno (Zpos e) w)
  | ReadFails e => (Zpos e, chromium_theme, set_errno (Zpos e) w)
  | Content [] => (w_errno w, chromium_theme, w)
  | Content s =>
      let line := store (auto_array E STRING_MAX) (fgets_bytes (STRING_MAX - 1) s) in
      let '(j, theme') := filter_loop (take STRING_MAX line) 0 chromium_theme in
      (0%Z, <[j := NUL]> theme', w)
  end.

(** ** The inotify records *)

(** [buf[i]]; the records are laid out by the kernel in the byte order
    of the host, little-endian on the platforms the program is built for.
    An index past the end of the array reads as 0 here; in C that access
    is outside the object and its result is not defined.  Nothing tells
    the bytes the last [read] stored from those left in the array
    before: the array is read wherever the loop points. *)
Definition peek (buf : list byte) (i : nat) : N := uchar (default NUL (buf !! i)).

Definition u32_at (buf : list byte) (i : nat) : N :=
  (peek buf i + 256 * peek buf (i + 1) + 65536 * peek buf (i + 2)
   + 16777216 * peek buf (i + 3))%N.

(** The fields of the [struct inotify_event] at offset [off]. *)
Definition ev_mask (buf : list byte) (off : nat) : N := u32_at buf (off + 4).
Definition ev_len (buf : list byte) (off : nat) : nat := N.to_nat (u32_at buf (off + 12)).
Definition ev_name (buf : list byte) (off : nat) : list byte :=
  cstr (drop (off + EVENT_HEADER) buf).

(** The indices of the four bytes of [ev->len] in the record at [off]. *)
Definition len_field (off : nat) : list nat := seq (off + 12) 4.

(** [sizeof(struct inotify_event) + ev->len], in a [size_t] of 64 bits,
    where the sum of 16 and a 32-bit length does not wrap around. *)
Definition ev_size (buf : list byte) (off : nat) : nat :=
  EVENT_HEADER + ev_len buf off.

(** The condition under which a record makes the theme be read again. *)
Definition qualifies (buf : list byte) (off : nat) : bool :=
  negb (N.land (ev_mask buf off) (N.lor IN_MOVED_TO IN_CREATE) =? 0)%N
  && (0 <? ev_len buf off)
  && bool_decide (ev_name buf off = THEME_DIR).

(** ** [main] *)

(** Reading the theme and reporting it, as [main] does before the loop
    and again for each qualifying record: on a nonzero result the error
    is sent and the process exits with it. *)
Definition reread (E : env) (path : list byte) (chromium_theme : list byte)
    : M (list byte) :=
  fun w =>
    let '(result, chromium_theme', w1) :=
      get_chromium_theme E chromium_theme path w in
    if decide (result = 0%Z)
    then Running chromium_theme' (send_msg E (Some chromium_theme') None 0 w1)
    else
      clean_exit result
        (send_msg E None (Some (lit "could not read chromium.theme to string"))
           result w1).

(** The [for (ssize_t off = 0; off < n;)] loop over the [n] bytes read
    into [buf], from offset [off] on. *)
Equations? events (E : env) (path buf : list byte) (n off : nat)
    (chromium_theme : list byte) (w : world) : outcome (list byte)
    by wf (n - off) lt :=
  events E path buf n off chromium_theme w with decide (off < n) := {
    | right _ := Running chromium_theme w
    | left _ with (ev_size buf off =? 0) || (n <? off + ev_size buf off) := {
        | true := Running chromium_theme w        (* break *)
        | false with (if qualifies buf off
                      then reread E path chromium_theme w
                      else Running chromium_theme w) := {
            | Running chromium_theme' w' :=
                events E path buf n (off + ev_size buf off) chromium_theme' w'
            | Exited st w' := Exited st w' } } }.
Proof. unfold ev_size, EVENT_HEADER. lia. Qed.

(** The offsets at which the loop over a batch finds a record: those it
    visits from [off] on when no record makes the process exit. *)
Equations? record_offsets (buf : list byte) (n off : nat) : list nat
    by wf (n - off) lt :=
  record_offsets buf n off with decide (off < n) := {
    | right _ := []
    | left _ with (ev_size buf off =? 0) || (n <? off + ev_size buf off) := {
        | true := []
        | false := off :: record_offsets buf n (off + ev_size buf off) } }.
Proof. unfold ev_size, EVENT_HEADER. lia. Qed.

(** What the environment does while the program is blocked in [read]:
    the file system changes, or [read] returns. *)
Inductive input : Type :=
| FsChange (fs : list byte -> file)
| ReadError (e : positive)              (* [read] returns -1, [errno = e] *)
| ReadBytes (bytes : list byte).        (* [read] returns [length bytes] *)

(** The [while (1)] loop, run until the inputs are used up (the program
    is then blocked in [read]) or the process exits. *)
Fixpoint steady (E : env) (path : list byte) (inputs : list input)
    (buf chromium_theme : list byte) : M unit :=
  match inputs with
  | [] => mret tt
  | FsChange fs :: rest =>
      fun w => steady E path rest buf chromium_theme (set_fopen fs w)
  | ReadError e :: rest =>
      fun w =>
        let w1 := set_errno (Zpos e) w in
        if decide (w_errno w1 = EINTR)
        then steady E path rest buf chromium_theme w1
        else
          let w2 :=
            send_msg E None (Some (lit "could not read inotify instance"))
              (w_errno w1) w1 in
          clean_exit (w_errno w2) w2
  | ReadBytes bytes :: rest =>
      let data := take INOTIFY_BUF_LEN bytes in
      let n := length data in
      let buf' := data ++ drop n buf in
      if n =? 0 then steady E path rest buf' chromium_theme
      else
        chromium_theme' ← events E path buf' n 0 chromium_theme;
        steady E path rest buf' chromium_theme'
  end.

Definition inotify_init (E : env) (w : world) : Z * world :=
  match env_inotify_init E with
  | Some e => ((-1)%Z, set_errno (Zpos e) w)
  | None => (Z.of_nat (env_notify_fd E), w)
  end.

Definition inotify_add_watch (E : env) (path : list byte) (w : world)
    : Z * world :=
  match env_add_watch E path with
  | Some e => ((-1)%Z, set_errno (Zpos e) w)
  | None => (1%Z, w)
  end.

Definition main (E : env) (inputs : list input) : outcome unit :=
  let w0 := init_world E in
  let '(result, current_path, w1) :=
    get_current_path E (static_array STRING_MAX) w0 in
  if decide (result = 0%Z) then
    let '(fd, w2) := inotify_init E w1 in
    let w3 := set_notify_fd fd w2 in
    if decide (notify_fd w3 = (-1)%Z) then
      let w4 := send_msg E None (Some (lit "could not init inotify"))
                  (w_errno w3) w3 in
      clean_exit (w_errno w4) w4
    else
      let '(wd, w4) := inotify_add_watch E (cstr current_path) w3 in
      if decide (wd = (-1)%Z) then
        let w5 :=
          send_msg E None
            (Some (lit "could not watch directory '~/.config/omarchy/current'"))
            (w_errno w4) w4 in
        clean_exit (w_errno w5) w5
      else
        let '(result, chromium_theme_path, w5) :=
          get_chromium_theme_path (static_array STRING_MAX) current_path w4 in
        if decide (result = 0%Z) then
          (chromium_theme ←
             reread E (cstr chromium_theme_path)
               (static_array CHROMIUM_THEME_MAX);
           steady E (cstr chromium_theme_path) inputs
             (auto_array E INOTIFY_BUF_LEN) chromium_theme) w5
        else
          clean_exit result
            (send_msg E None
               (Some (lit "could not get path '~/.config/omarchy/current/theme/chromium.theme'"))
               result w5)
  else
    clean_exit result
      (send_msg E None
         (Some (lit "could not get path '~/.config/omarchy/current'"))
         result w1).

(** * Reference definitions

    The notions the properties are stated with, written independently of
    the program: the escaping table, JSON string bodies and their
    decoding, JSON numbers, the shape of a message and the framing as a
    reader of the stream sees it. *)

Definition is_digit (c : byte) : bool :=
  (48 <=? uchar c)%N && (uchar c <=? 57)%N.

(** The lowercase hexadecimal digit of a value below 16. *)
Definition lower_hex_digit (n : N) : byte :=
  byte_of_N (if (n <? 10)%N then 48 + n else 87 + n)%N.

(** The escaping table: two-character escapes for the seven named
    bytes, [\u00XX] for the other bytes below 0x20, the byte itself
    otherwise. *)
Definition table_escape (c : byte) : list byte :=
  if decide (c = x22) then lit "\" ++ [dq]
  else if decide (c = x5c) then lit "\\"
  else if decide (c = x08) then lit "\b"
  else if decide (c = x0c) then lit "\f"
  else if decide (c = x0a) then lit "\n"
  else if decide (c = x0d) then lit "\r"
  else if decide (c = x09) then lit "\t"
  else if (uchar c <? 32)%N then
    lit "\u00" ++ [lower_hex_digit (uchar c / 16); lower_hex_digit (uchar c mod 16)]
  else [c].

(** An ASCII digit or a comma. *)
Definition digit_or_comma (c : byte) : bool :=
  bool_decide (c ∈ lit "0123456789,").

(** The first line of a stream: its bytes up to and including the first
    newline, all of them when there is none. *)
Fixpoint first_line (s : list byte) : list byte :=
  match s with
  | [] => []
  | c :: s' => if decide (c = x0a) then [c] else c :: first_line s'
  end.

Definition is_hex_digit (c : byte) : bool :=
  is_digit c
  || ((97 <=? uchar c)%N && (uchar c <=? 102)%N)
  || ((65 <=? uchar c)%N && (uchar c <=? 70)%N).

Definition hex_value (c : byte) : N :=
  if is_digit c then uchar c - 48
  else if (97 <=? uchar c)%N then uchar c - 87
  else uchar c - 55.

(** The byte a two-character escape stands for. *)
Definition simple_escape (e : byte) : option byte :=
  match e with
  | x22 => Some x22 | x5c => Some x5c | x2f => Some x2f
  | x62 => Some x08 | x66 => Some x0c | x6e => Some x0a
  | x72 => Some x0d | x74 => Some x09
  | _ => None
  end.

(** A JSON string body: no raw control character, no raw quote, and
    every backslash starts a two-character escape or [\uXXXX]. *)
Fixpoint json_string_body (s : list byte) : bool :=
  match s with
  | [] => true
  | c :: t =>
      if decide (c = x5c) then
        match t with
        | [] => false
        | e :: t' =>
            if decide (e = x75) then
              match t' with
              | h1 :: h2 :: h3 :: h4 :: t'' =>
                  is_hex_digit h1 && is_hex_digit h2 && is_hex_digit h3
                  && is_hex_digit h4 && json_string_body t''
              | _ => false
              end
            else match simple_escape e with
                 | Some _ => json_string_body t'
                 | None => false
                 end
        end
      else if decide (c = dq) then false
      else if (uchar c <? 32)%N then false
      else json_string_body t
  end.

(** The UTF-8 bytes of a code point of the basic plane. *)
Definition utf8 (cp : N) : list byte :=
  if (cp <? 128)%N then [byte_of_N cp]
  else if (cp <? 2048)%N then
    [byte_of_N (192 + cp / 64); byte_of_N (128 + cp mod 64)]
  else
    [byte_of_N (224 + cp / 4096); byte_of_N (128 + (cp / 64) mod 64);
     byte_of_N (128 + cp mod 64)].

(** Decoding the escapes of a string body; [None] when it is not one. *)
Fixpoint json_unescape (s : list byte) : option (list byte) :=
  match s with
  | [] => Some []
  | c :: t =>
      if decide (c = x5c) then
        match t with
        | [] => None
        | e :: t' =>
            if decide (e = x75) then
              match t' with
              | h1 :: h2 :: h3 :: h4 :: t'' =>
                  if is_hex_digit h1 && is_hex_digit h2 && is_hex_digit h3
                     && is_hex_digit h4
                  then
                    let cp := (4096 * hex_value h1 + 256 * hex_value h2
                               + 16 * hex_value h3 + hex_value h4)%N in
                    app (utf8 cp) <$> json_unescape t''
                  else None
              | _ => None
              end
            else
              match simple_escape e with
              | Some b => cons b <$> json_unescape t'
              | None => None
              end
        end
      else if decide (c = dq) then None
      else if (uchar c <? 32)%N then None
      else cons c <$> json_unescape t
  end.

(** Reading a JSON number at the start of [s]; the result is what
    follows it. *)
Fixpoint skip_digits (s : list byte) : list byte :=
  match s with
  | c :: t => if is_digit c then skip_digits t else s
  | [] => []
  end.

Definition digits1 (s : list byte) : option (list byte) :=
  match s with
  | c :: t => if is_digit c then Some (skip_digits t) else None
  | [] => None
  end.

Definition json_number (s : list byte) : option (list byte) :=
  let s1 := match s with x2d :: t => t | _ => s end in
  r1 ← match s1 with x30 :: t => Some t | _ => digits1 s1 end;
  r2 ← match r1 with x2e :: t => digits1 t | _ => Some r1 end;
  match r2 with
  | x65 :: t | x45 :: t =>
      match t with
      | x2b :: t' | x2d :: t' => digits1 t'
      | _ => digits1 t
      end
  | _ => Some r2
  end.

(** Reading the literal [p] at the start of [s]. *)
Fixpoint expect (p s : list byte) : option (list byte) :=
  match p, s with
  | [], _ => Some s
  | a :: p', b :: s' => if decide (a = b) then expect p' s' else None
  | _ :: _, [] => None
  end.

(** Reading a string body up to its closing quote. *)
Fixpoint json_string_tail (fuel : nat) (s : list byte) : option (list byte) :=
  match fuel, s with
  | S fuel', c :: t =>
      if decide (c = dq) then Some t
      else if decide (c = x5c) then
        match t with
        | e :: t' =>
            if decide (e = x75) then
              match t' with
              | h1 :: h2 :: h3 :: h4 :: t'' =>
                  if is_hex_digit h1 && is_hex_digit h2 && is_hex_digit h3
                     && is_hex_digit h4
                  then json_string_tail fuel' t'' else None
              | _ => None
              end
            else match simple_escape e with
                 | Some _ => json_string_tail fuel' t'
                 | None => None
                 end
        | [] => None
        end
      else if (uchar c <? 32)%N then None
      else json_string_tail fuel' t
  | _, _ => None
  end.

(** The message shape of the protocol: an object with the two fields
    [rgb], an array of three numbers or null, and [error], a string or
    null, precisely one of them null. *)
Definition three_numbers (s : list byte) : option (list byte) :=
  r ← expect (lit "[") s; r ← json_number r;
  r ← expect (lit ",") r; r ← json_number r;
  r ← expect (lit ",") r; r ← json_number r;
  expect (lit "]") r.

Definition protocol_message (body : list byte) : bool :=
  match expect (lit "{" ++ key "rgb" ++ lit ":") body with
  | None => false
  | Some r =>
      match expect (lit "null") r with
      | Some r' =>
          (* rgb is null: error must be a string *)
          match expect (lit "," ++ key "error" ++ lit ":" ++ [dq]) r' with
          | Some r'' =>
              bool_decide (json_string_tail (length r'') r'' = Some (lit "}"))
          | None => false
          end
      | None =>
          match three_numbers r with
          | Some r' =>
              bool_decide (r' = lit "," ++ key "error" ++ lit ":null}")
          | None => false
          end
      end
  end.

(** The framing as the reader of the stream undoes it: a 4-byte
    little-endian length, then that many bytes. *)
Definition le_value (bs : list byte) : N :=
  foldr (fun b acc => (uchar b + 256 * acc)%N) 0%N bs.

Definition read_frame (stream : list byte) : option (list byte * list byte) :=
  let len := N.to_nat (le_value (take 4 stream)) in
  let rest := drop 4 stream in
  if (4 <=? length stream) && (len <=? length rest)
  then Some (take len rest, drop len rest)
  else None.

Definition frame (body : list byte) : list byte :=
  htole32 (uint32 (length body)) ++ body.

(** ** What [send_msg] puts in a message *)

(** The C string [escape_into] leaves in its scratch array. *)
Definition escaped (text : list byte) : list byte :=
  if decide (needed_capacity (cstr text) ≤ MSG_MAX)
  then escape_all (cstr text)
  else lit "error too long".

(** The expansion of the format [send_msg] selects. *)
Definition body_of (E : env) (rgb err : option (list byte)) (en : Z)
    : list byte :=
  match rgb, err with
  | Some c, Some e =>
      fmt_rgb_error (cstr c) (escaped e) (escaped (env_strerror E en))
  | Some c, None => fmt_rgb (cstr c)
  | None, Some e => fmt_error (escaped e) (escaped (env_strerror E en))
  | None, None => fmt_null
  end.

(** The file-scope arrays have their declared size. *)
Definition buffers_ok (w : world) : Prop :=
  length (msg w) = MSG_MAX ∧ length (esc_err w) = MSG_MAX
  ∧ length (esc_syserr w) = MSG_MAX.

(** The two bodies [main] has sent: a colour, where the bracketed text
    is a string of at most 11 digits and commas and [error] is null, or
    an error, where [rgb] is null and [error] is a JSON string. *)
Definition normal_body (body : list byte) : Prop :=
  (∃ s, body = fmt_rgb s
        ∧ Forall (λ c, digit_or_comma c) s ∧ length s ≤ 11)
  ∨ (∃ e1 e2, body = fmt_error e1 e2
        ∧ json_string_body (e1 ++ lit ": " ++ e2) = true).

(** Whether [s] is three JSON numbers separated by commas, that is,
    whether [[s]] reads as an array of three numbers. *)
Definition number_triple (s : list byte) : bool :=
  bool_decide (three_numbers (lit "[" ++ s ++ lit "]") = Some []).

(** A normal body together with what the message shape of the protocol
    makes of it: an error body always has that shape; a colour body has
    it exactly when the text between the brackets is three numbers. *)
Definition normal_message (body : list byte) : Prop :=
  (∃ s, body = fmt_rgb s
        ∧ Forall (λ c, digit_or_comma c) s ∧ length s ≤ 11
        ∧ protocol_message body = number_triple s)
  ∨ (∃ e1 e2, body = fmt_error e1 e2
        ∧ json_string_body (e1 ++ lit ": " ++ e2) = true
        ∧ protocol_message body = true).

(** Reading a number in a string of digits and commas: no sign,
    fraction or exponent can occur. *)
Definition plain_number (s : list byte) : option (list byte) :=
  match s with x30 :: t => Some t | _ => digits1 s end.

(** What is left of a string of digits and commas after three numbers
    separated by commas. *)
Definition after_three_numbers (s : list byte) : option (list byte) :=
  r ← plain_number s; r ← expect (lit ",") r;
  r ← plain_number r; r ← expect (lit ",") r;
  plain_number r.

(** The destination of the reader between calls: 12 bytes holding a
    string of at most 11 digits and commas. *)
Definition theme_ok (chromium_theme : list byte) : Prop :=
  length chromium_theme = CHROMIUM_THEME_MAX
  ∧ Forall (λ c, digit_or_comma c) (cstr chromium_theme)
  ∧ length (cstr chromium_theme) ≤ 11.

(** Every [fwrite] and [fflush] to come succeeds. *)
Definition writes_succeed (ws : list (option (positive * nat))) : Prop :=
  Forall (λ o, o = None) ws.

(** Standard output is a sequence of framed normal bodies. *)
Definition stream_ok (out : list byte) : Prop :=
  ∃ bodies, out = concat (map frame bodies) ∧ Forall normal_body bodies.

(** The state of a run in which every write has succeeded so far and
    will succeed. *)
Definition healthy (w : world) : Prop :=
  buffers_ok w ∧ writes_succeed (w_writes w) ∧ stream_ok (w_stdout w).

(** An outcome whose world is healthy and whose value, if the program
    is still running, satisfies [P]. *)
Definition outcome_healthy {A} (P : A → Prop) (o : outcome A) : Prop :=
  match o with
  | Running a w => P a ∧ healthy w
  | Exited _ w => healthy w
  end.

(** The contexts of the six error messages of [main]. *)
Definition fatal_contexts : list (list byte) :=
  [lit "could not get path '~/.config/omarchy/current'";
   lit "could not init inotify";
   lit "could not watch directory '~/.config/omarchy/current'";
   lit "could not get path '~/.config/omarchy/current/theme/chromium.theme'";
   lit "could not read chromium.theme to string";
   lit "could not read inotify instance"].

(** An exit that was reported: the status is a nonzero error number,
    and standard output is a sequence of frames of normal bodies
    followed by the frame of one of the error messages of [main], made
    for that very number (by nothing if that message exceeds the
    message size and was dropped). *)
Definition exit_reported (E : env) {A} (o : outcome A) : Prop :=
  match o with
  | Running _ _ => True
  | Exited st w =>
      st ≠ 0%Z
      ∧ ∃ context before,
          context ∈ fatal_contexts
          ∧ stream_ok before
          ∧ w_stdout w
            = before
              ++ (if decide (length (body_of E None (Some context) st) < MSG_MAX)
                  then frame (body_of E None (Some context) st) else [])
  end.

(** An input that gives the loop nothing to do: a change of the file
    system, a [read] interrupted by a signal, or a [read] of no bytes. *)
Definition idle (i : input) : Prop :=
  match i with
  | FsChange _ => True
  | ReadError e => Zpos e = EINTR
  | ReadBytes bytes => bytes = []
  end.

(** What [clean_exit] does to the world before the process ends. *)
Definition closing (w : world) : world :=
  if (0 <=? notify_fd w)%Z then close (notify_fd w) w else w.

(** An outcome reached from worlds satisfying [I]: a running program is
    in such a world, with a value satisfying [P], and an exited one left
    such a world through [clean_exit]. *)
Definition ends_in {A} (P : A → Prop) (I : world → Prop) (o : outcome A)
    : Prop :=
  match o with
  | Running a w => P a ∧ I w
  | Exited _ w => ∃ w0, I w0 ∧ w = closing w0
  end.

(** Reading a whole stream of frames, as the consumer does. *)
Fixpoint read_frames (fuel : nat) (stream : list byte)
    : option (list (list byte)) :=
  match stream, fuel with
  | [], _ => Some []
  | _, 0 => None
  | _, S fuel' =>
      match read_frame stream with
      | Some (body, rest) => cons body <$> read_frames fuel' rest
      | None => None
      end
  end.

(** * A concrete environment

    A home directory with the watched directory and the theme file in
    place, used to run the program on explicit inputs. *)

Module Demo.

Definition home : list byte := lit "/home/u".
Definition current : list byte := lit "/home/u/.config/omarchy/current".
Definition theme_path : list byte :=
  lit "/home/u/.config/omarchy/current/theme/chromium.theme".

Definition ENOENT : positive := 2.
Definition EBADF : positive := 9.
Definition EMFILE : positive := 24.

Definition strerror (e : Z) : list byte :=
  if decide (e = 2%Z) then lit "No such file or directory"
  else if decide (e = 9%Z) then lit "Bad file descriptor"
  else if decide (e = 24%Z) then lit "Too many open files"
  else lit "Unknown error".

(** A file system whose only file is the theme file. *)
Definition fs (theme : file) (path : list byte) : file :=
  if decide (path = theme_path) then theme else OpenFails ENOENT.

Definition E (theme : file) : env :=
  {| env_HOME := Some home;
     env_passwd := PwNull None;
     env_opendir := fun p => if decide (p = current) then None else Some ENOENT;
     env_fopen := fs theme;
     env_inotify_init := None;
     env_notify_fd := 3;
     env_add_watch := fun _ => None;
     env_strerror := strerror;
     env_writes := [];
     env_garbage := [] |}.

(** The same, but no inotify instance is to be had and stdout is closed:
    the first write fails at once. *)
Definition E_no_inotify : env :=
  {| env_HOME := Some home;
     env_passwd := PwNull None;
     env_opendir := fun p => if decide (p = current) then None else Some ENOENT;
     env_fopen := fs (Content (lit "23,43,67" ++ [x0a]));
     env_inotify_init := Some EMFILE;
     env_notify_fd := 3;
     env_add_watch := fun _ => None;
     env_strerror := strerror;
     env_writes := [Some (EBADF, 0)];
     env_garbage := [] |}.

(** No [HOME] and no passwd entry; the stack holds two stray bytes. *)
Definition E_no_home : env :=
  {| env_HOME := None;
     env_passwd := PwNull None;
     env_opendir := fun _ => Some ENOENT;
     env_fopen := fs (Content []);
     env_inotify_init := None;
     env_notify_fd := 3;
     env_add_watch := fun _ => None;
     env_strerror := strerror;
     env_writes := [];
     env_garbage := lit "?!" |}.

(** No inotify instance, and standard output accepts the two writes
    into its buffer but cannot be flushed. *)
Definition E_no_inotify_no_flush : env :=
  {| env_HOME := Some home;
     env_passwd := PwNull None;
     env_opendir := fun p => if decide (p = current) then None else Some ENOENT;
     env_fopen := fs (Content (lit "23,43,67" ++ [x0a]));
     env_inotify_init := Some EMFILE;
     env_notify_fd := 3;
     env_add_watch := fun _ => None;
     env_strerror := strerror;
     env_writes := [None; None; Some (EBADF, 0)];
     env_garbage := [] |}.

(** An inotify record: a header with [mask] and the length of the name
    field, then the name padded with [pad] NULs. *)
Definition record (mask : N) (name : list byte) (pad : nat) : list byte :=
  [x01; x00; x00; x00] ++ htole32 mask ++ [x00; x00; x00; x00]
    ++ htole32 (N.of_nat (length name + pad)) ++ name ++ replicate pad NUL.

(** 32 bytes that start like a record for [theme] but declare a name
    field of 4000 bytes. *)
Definition overrunning : list byte :=
  [x01; x00; x00; x00] ++ htole32 IN_MOVED_TO ++ [x00; x00; x00; x00]
    ++ htole32 4000 ++ lit "theme" ++ replicate 11 NUL.

End Demo.

(** * Properties *)
(** ** Arrays and C strings *)

Section Arrays.
Implicit Types (buf dst bs text : list byte) (di : nat).

Lemma length_poke dst di bs : length (poke dst di bs) = length dst.
Proof.
  revert dst di. induction bs as [|b bs IH]; intros dst di; simpl; [done|].
  by rewrite IH, length_insert.
Qed.

(** Writing inside the array replaces a segment and nothing else. *)
Lemma poke_segment dst di bs :
  di + length bs ≤ length dst →
  poke dst di bs = take di dst ++ bs ++ drop (di + length bs) dst.
Proof.
  revert dst di. induction bs as [|b bs IH]; intros dst di Hlen; simpl in *.
  - by rewrite Nat.add_0_r, take_drop.
  - rewrite IH by (rewrite length_insert; lia).
    rewrite drop_insert_lt by lia.
    assert (Hb : <[di:=b]> dst !! di = Some b)
      by (apply list_lookup_insert_eq; lia).
    rewrite (take_S_r _ _ _ Hb).
    rewrite take_insert_ge by lia.
    replace (di + S (length bs)) with (S di + length bs) by lia.
    by rewrite <- app_assoc.
Qed.

Lemma cstr_app_nul text buf : cstr (text ++ NUL :: buf) = cstr text.
Proof.
  induction text as [|c text IH]; simpl; [done|].
  case_decide; [done|]. by rewrite IH.
Qed.

Lemma cstr_no_nul buf : NUL ∉ cstr buf.
Proof.
  induction buf as [|c buf IH]; simpl; [apply not_elem_of_nil|].
  case_decide; [apply not_elem_of_nil|].
  rewrite not_elem_of_cons. split; [congruence|done].
Qed.

Lemma cstr_id text : NUL ∉ text → cstr text = text.
Proof.
  induction text as [|c text IH]; intros Hnul; simpl; [done|].
  rewrite decide_False by (intros ->; apply Hnul; left).
  f_equal. apply IH. intros ?; apply Hnul; by right.
Qed.

Lemma cstr_length buf : length (cstr buf) ≤ length buf.
Proof.
  induction buf as [|c buf IH]; simpl; [done|].
  case_decide; simpl; lia.
Qed.

Lemma cstr_prefix buf : ∃ rest, buf = cstr buf ++ rest.
Proof.
  induction buf as [|c buf [rest IH]]; simpl; [by exists []|].
  case_decide; [by eexists|]. exists rest. simpl. by f_equal.
Qed.

Lemma length_store buf text : length (store buf text) = length buf.
Proof. apply length_poke. Qed.

Lemma store_segment buf text :
  length text < length buf →
  store buf text = text ++ NUL :: drop (S (length text)) buf.
Proof.
  intros Hlen. unfold store.
  rewrite poke_segment by (rewrite length_app; simpl; lia).
  rewrite length_app, <- app_assoc. simpl.
  by replace (length text + 1) with (S (length text)) by lia.
Qed.

Lemma cstr_store buf text :
  length text < length buf → NUL ∉ text → cstr (store buf text) = text.
Proof.
  intros Hlen Hnul. rewrite store_segment by done.
  by rewrite cstr_app_nul, cstr_id.
Qed.
End Arrays.
(** ** [json_escape]: the bytes *)

Section EscapeBytes.
Implicit Types (c : byte) (src rest : list byte).

Lemma escape_byte_table c : escape_byte c = table_escape c.
Proof. destruct c; reflexivity. Qed.

Lemma escape_byte_length c : 1 ≤ length (escape_byte c) ≤ 6.
Proof. destruct c; simpl; lia. Qed.

Lemma escape_byte_no_nul c : NUL ∉ escape_byte c.
Proof.
  assert (H : bool_decide (NUL ∉ escape_byte c) = true)
    by (destruct c; vm_compute; reflexivity).
  by apply bool_decide_eq_true in H.
Qed.

Lemma json_string_body_escape_byte c rest :
  json_string_body (escape_byte c ++ rest) = json_string_body rest.
Proof. destruct c; reflexivity. Qed.

Lemma json_unescape_escape_byte c rest :
  json_unescape (escape_byte c ++ rest) = cons c <$> json_unescape rest.
Proof. destruct c; reflexivity. Qed.

Lemma escape_all_cons c src :
  escape_all (c :: src) = escape_byte c ++ escape_all src.
Proof. reflexivity. Qed.

Lemma escape_all_app src rest :
  escape_all (src ++ rest) = escape_all src ++ escape_all rest.
Proof. unfold escape_all. by rewrite map_app, concat_app. Qed.

Lemma escape_all_no_nul src : NUL ∉ escape_all src.
Proof.
  induction src as [|c src IH]; [apply not_elem_of_nil|].
  rewrite escape_all_cons, not_elem_of_app.
  split; [apply escape_byte_no_nul | done].
Qed.

Lemma escape_all_length src :
  length src ≤ length (escape_all src) ≤ 6 * length src.
Proof.
  induction src as [|c src IH]; [simpl; lia|].
  rewrite escape_all_cons, length_app. simpl.
  pose proof (escape_byte_length c). lia.
Qed.

Lemma json_string_body_escape_all src rest :
  json_string_body (escape_all src ++ rest) = json_string_body rest.
Proof.
  induction src as [|c src IH]; [done|].
  by rewrite escape_all_cons, <- app_assoc, json_string_body_escape_byte.
Qed.

Lemma json_unescape_escape_all src : json_unescape (escape_all src) = Some src.
Proof.
  induction src as [|c src IH]; [done|].
  by rewrite escape_all_cons, json_unescape_escape_byte, IH.
Qed.
End EscapeBytes.

(** ** [json_escape]: the loop and its bound *)

Section EscapeLoop.
Implicit Types (c : byte) (src dst : list byte) (di n : nat).

Lemma poke_app dst di (a b : list byte) :
  poke dst di (a ++ b) = poke (poke dst di a) (di + length a) b.
Proof.
  revert dst di. induction a as [|x a IH]; intros dst di; simpl.
  - by rewrite Nat.add_0_r.
  - rewrite IH. f_equal. lia.
Qed.

Lemma removelast_cons2 c c' src :
  removelast (c :: c' :: src) = c :: removelast (c' :: src).
Proof. reflexivity. Qed.

(** With headroom before the last byte the loop runs to its end. *)
Lemma json_escape_loop_runs src di dst n :
  (src = [] ∨ di + length (escape_all (removelast src)) + 6 < n) →
  json_escape_loop src di dst n
  = (Some (di + length (escape_all src)), poke dst di (escape_all src)).
Proof.
  revert di dst. induction src as [|c src IH]; intros di dst Hroom.
  - simpl. by rewrite Nat.add_0_r.
  - destruct Hroom as [?|Hroom]; [done|].
    cbn [json_escape_loop].
    destruct src as [|c' src].
    + simpl in Hroom.
      rewrite (proj2 (Nat.leb_gt _ _)) by lia.
      simpl. by rewrite escape_all_cons, app_nil_r.
    + rewrite removelast_cons2, escape_all_cons, length_app in Hroom.
      rewrite (proj2 (Nat.leb_gt _ _)) by lia.
      rewrite IH by (right; lia).
      rewrite (escape_all_cons c), length_app, poke_app.
      f_equal. f_equal. lia.
Qed.

(** Without it the loop returns early. *)
Lemma json_escape_loop_stops src di dst n :
  src ≠ [] → n ≤ di + length (escape_all (removelast src)) + 6 →
  (json_escape_loop src di dst n).1 = None.
Proof.
  revert di dst. induction src as [|c src IH]; intros di dst Hne Hroom; [done|].
  cbn [json_escape_loop].
  destruct (Nat.leb_spec n (di + 6)) as [|Hgo]; [done|].
  destruct src as [|c' src]; [simpl in Hroom; lia|].
  rewrite removelast_cons2, escape_all_cons, length_app in Hroom.
  apply IH; [done | lia].
Qed.

Lemma needed_capacity_pos src : 0 < needed_capacity src.
Proof. destruct src; simpl; lia. Qed.

Lemma needed_capacity_snoc src c :
  needed_capacity (src ++ [c]) = length (escape_all src) + 7.
Proof.
  unfold needed_capacity. destruct (src ++ [c]) eqn:E; [by destruct src|].
  by rewrite <- E, removelast_last.
Qed.

Lemma needed_capacity_length src :
  length (escape_all src) < needed_capacity src.
Proof.
  destruct src as [|c src _] using rev_ind; [simpl; lia|].
  rewrite needed_capacity_snoc, escape_all_app, length_app.
  pose proof (escape_all_length [c]). simpl in *. lia.
Qed.

(** [json_escape] succeeds exactly when the capacity reaches
    [needed_capacity]; it then stores the whole escaping and its NUL. *)
Lemma json_escape_fits src dst n :
  needed_capacity src ≤ n →
  json_escape src dst n
  = (Z.of_nat (length (escape_all src)), store dst (escape_all src)).
Proof.
  intros Hcap. unfold json_escape.
  pose proof (needed_capacity_pos src).
  pose proof (needed_capacity_length src).
  rewrite (proj2 (Nat.eqb_neq _ _)) by lia.
  rewrite json_escape_loop_runs.
  2:{ destruct src; [by left|right]. unfold needed_capacity in Hcap. lia. }
  simpl. rewrite (proj2 (Nat.leb_gt _ _)) by lia.
  unfold store. by rewrite poke_app.
Qed.

Lemma json_escape_too_long src dst n :
  n < needed_capacity src → (json_escape src dst n).1 = (-1)%Z.
Proof.
  intros Hcap. unfold json_escape.
  destruct (Nat.eqb_spec n 0) as [|Hn]; [done|].
  destruct src as [|c src]; [simpl in Hcap; lia|].
  assert (Hstop : (json_escape_loop (c :: src) 0 dst n).1 = None).
  { apply json_escape_loop_stops; [done|]. unfold needed_capacity in Hcap. lia. }
  destruct (json_escape_loop (c :: src) 0 dst n) as [[di|] dst'];
    [discriminate | done].
Qed.
End EscapeLoop.
(** ** [json_escape]: what it computes *)

Lemma json_escape_result src dst n r dst' :
  json_escape src dst n = (r, dst') → r ≠ (-1)%Z →
  needed_capacity src ≤ n
  ∧ r = Z.of_nat (length (escape_all src))
  ∧ dst' = store dst (escape_all src).
Proof.
  intros Hrun Hr.
  destruct (Nat.le_gt_cases (needed_capacity src) n) as [Hcap|Hcap].
  - rewrite json_escape_fits in Hrun by done. by simplify_eq.
  - apply (json_escape_too_long src dst) in Hcap. rewrite Hrun in Hcap. done.
Qed.

Lemma json_escape_cstr src dst r dst' :
  json_escape src dst (length dst) = (r, dst') → r ≠ (-1)%Z →
  cstr dst' = escape_all src ∧ r = Z.of_nat (length (cstr dst')).
Proof.
  intros Hrun Hr.
  destruct (json_escape_result _ _ _ _ _ Hrun Hr) as (Hcap & -> & ->).
  pose proof (needed_capacity_length src).
  rewrite cstr_store; [done | lia | apply escape_all_no_nul].
Qed.

(** C4. Whenever [json_escape] succeeds, the string it leaves in the
    destination is the input with every byte replaced according to the
    escaping table: the two-character escapes for quote, backslash,
    backspace, form feed, newline, carriage return and tab, [\u00XX]
    with lowercase hexadecimal digits for any other byte below 0x20, and
    every other byte, whatever its value, unchanged. *)
Theorem json_escape_follows_table (src dst : list byte) (r : Z) (dst' : list byte) :
  json_escape src dst (length dst) = (r, dst') → r ≠ (-1)%Z →
  cstr dst' = concat (map table_escape src)
  ∧ r = Z.of_nat (length (cstr dst')).
Proof.
  intros Hrun Hr.
  destruct (json_escape_cstr _ _ _ _ Hrun Hr) as [-> ->]. split; [|done].
  unfold escape_all. f_equal. apply map_ext, escape_byte_table.
Qed.

Lemma json_escape_follows_table_witness :
  json_escape [x22; x5c; x08; x0c; x0a; x0d; x09; x00; x1f; x20; x7f; xff]
    (static_array 40) 40
  = (29%Z,
     lit "\" ++ [dq] ++ lit "\\\b\f\n\r\t\u0000\u001f " ++ [x7f; xff; NUL]
       ++ static_array 10)
  ∧ concat (map table_escape
              [x22; x5c; x08; x0c; x0a; x0d; x09; x00; x1f; x20; x7f; xff])
    = lit "\" ++ [dq] ++ lit "\\\b\f\n\r\t\u0000\u001f " ++ [x7f; xff].
Proof.
  split; [reflexivity|].
  refine (eq_trans (eq_sym (proj1 (json_escape_follows_table
    [x22; x5c; x08; x0c; x0a; x0d; x09; x00; x1f; x20; x7f; xff]
    (static_array 40) 29 _ _ _))) _).
  - reflexivity.
  - discriminate.
  - reflexivity.
Defined.

(** C5. Whenever [json_escape] succeeds, the string it leaves in the
    destination is a JSON string body (no raw control character, quote
    or backslash outside an escape), and decoding its escapes gives back
    exactly the input bytes. *)
Theorem json_escape_round_trip (src dst : list byte) (r : Z) (dst' : list byte) :
  json_escape src dst (length dst) = (r, dst') → r ≠ (-1)%Z →
  json_string_body (cstr dst') = true
  ∧ json_unescape (cstr dst') = Some src.
Proof.
  intros Hrun Hr.
  destruct (json_escape_cstr _ _ _ _ Hrun Hr) as [-> _]. split.
  - rewrite <- (app_nil_r (escape_all src)).
    by rewrite json_string_body_escape_all.
  - apply json_unescape_escape_all.
Qed.

Lemma json_escape_round_trip_witness :
  json_unescape (lit "say \" ++ [dq] ++ lit "hi\" ++ [dq] ++ lit "\n\u0001")
  = Some (lit "say " ++ [dq] ++ lit "hi" ++ [dq; x0a; x01]).
Proof.
  refine (proj2 (json_escape_round_trip
    (lit "say " ++ [dq] ++ lit "hi" ++ [dq; x0a; x01])
    (static_array 32) 18
    (lit "say \" ++ [dq] ++ lit "hi\" ++ [dq] ++ lit "\n\u0001" ++ [NUL]
       ++ static_array 13) _ _)).
  - reflexivity.
  - discriminate.
Defined.

(** C6, as the program has it.  [json_escape] returns [-1] exactly when
    the capacity is below [needed_capacity]: zero, or, for a non-empty
    input, less than what precedes the last byte plus 6 bytes and the
    terminator; the test before each byte allows for the worst case of
    that one byte, not of all the bytes that remain.  When it does not
    fail, the destination holds the complete escaping and its
    terminator.  At the boundary where 6 times the input length exceeds
    the capacity by one it fails provided every byte before the last
    takes six characters (so for every one-byte input). *)
Theorem json_escape_headroom (src dst : list byte) (n : nat) :
  ((json_escape src dst n).1 = (-1)%Z ↔ n < needed_capacity src)
  ∧ (needed_capacity src ≤ n → n ≤ length dst →
     json_escape src dst n
     = (Z.of_nat (length (escape_all src)), store dst (escape_all src))
     ∧ cstr (store dst (escape_all src)) = escape_all src
     ∧ length (escape_all src) < n)
  ∧ (∀ p c, src = p ++ [c] →
     Forall (λ b, length (escape_byte b) = 6) p →
     6 * length src = n + 1 →
     (json_escape src dst n).1 = (-1)%Z).
Proof.
  assert (Hiff : (json_escape src dst n).1 = (-1)%Z ↔ n < needed_capacity src).
  { split; [|apply json_escape_too_long].
    intros Hfail. destruct (Nat.le_gt_cases (needed_capacity src) n); [|done].
    rewrite json_escape_fits in Hfail by done. simpl in Hfail. lia. }
  split; [done|split].
  - intros Hcap Hlen. pose proof (needed_capacity_length src).
    split; [by apply json_escape_fits|split; [|lia]].
    apply cstr_store; [lia | apply escape_all_no_nul].
  - intros p c -> Hsix Hlen. apply Hiff.
    rewrite needed_capacity_snoc. rewrite length_app in Hlen. simpl in Hlen.
    enough (length (escape_all p) = 6 * length p) by lia.
    clear -Hsix. induction Hsix as [|b p Hb _ IH]; [done|].
    rewrite escape_all_cons, length_app. simpl. lia.
Qed.

(** C6 as stated fails: two ordinary characters and a capacity of 11,
    one less than 6 times the input length, and the call succeeds. *)
Lemma json_escape_boundary_succeeds :
  6 * length (lit "ab") = 11 + 1
  ∧ json_escape (lit "ab") (static_array 11) 11
    = (2%Z, lit "ab" ++ [NUL] ++ static_array 8).
Proof. split; reflexivity. Qed.
(** ** [get_chromium_theme] *)

Section Reader.
Implicit Types (c : byte) (s line theme : list byte) (j : nat).

Lemma is_digit_or_comma_spec c : is_digit_or_comma c = digit_or_comma c.
Proof. destruct c; reflexivity. Qed.

Lemma fgets_bytes_first_line k s : fgets_bytes k s = take k (first_line s).
Proof.
  revert s. induction k as [|k IH]; intros [|c s]; simpl; try done.
  case_decide; simpl; [by rewrite take_nil | by rewrite IH].
Qed.

Lemma length_auto_array E n : length (auto_array E n) = n.
Proof.
  unfold auto_array. rewrite length_take, length_app, length_replicate. lia.
Qed.

(** The loop copies the digits and commas of the C string in [line]
    until 11 characters are in place. *)
Lemma filter_loop_spec line j theme :
  filter_loop line j theme
  = (j + length (take (11 - j) (filter (λ c, digit_or_comma c) (cstr line))),
     poke theme j (take (11 - j) (filter (λ c, digit_or_comma c) (cstr line)))).
Proof.
  revert j theme. induction line as [|c line IH]; intros j theme;
    cbn [filter_loop cstr].
  { rewrite filter_nil, take_nil. simpl. by rewrite Nat.add_0_r. }
  case_decide as Hnul.
  { rewrite filter_nil, take_nil. simpl. by rewrite Nat.add_0_r. }
  rewrite is_digit_or_comma_spec.
  destruct (digit_or_comma c) eqn:Hc.
  - rewrite filter_cons_True by (by apply Is_true_true).
    change (CHROMIUM_THEME_MAX - 1) with 11.
    destruct (Nat.leb_spec 11 j) as [Hfull|Hroom].
    + replace (11 - j) with 0 by lia. simpl. by rewrite Nat.add_0_r.
    + rewrite IH. replace (11 - j) with (S (11 - S j)) by lia.
      simpl. f_equal. lia.
  - rewrite filter_cons_False by (by apply Is_true_false). apply IH.
Qed.

Lemma filter_digit_or_comma_no_nul s :
  NUL ∉ filter (λ c, digit_or_comma c) s.
Proof. rewrite list_elem_of_filter. by intros [? _]. Qed.

(** The array [line] after a successful [fgets]. *)
Lemma fgets_line E s :
  ∃ rest,
    take STRING_MAX
      (store (auto_array E STRING_MAX) (fgets_bytes (STRING_MAX - 1) s))
    = fgets_bytes (STRING_MAX - 1) s ++ NUL :: rest.
Proof.
  set (got := fgets_bytes (STRING_MAX - 1) s).
  assert (Hgot : length got < length (auto_array E STRING_MAX)).
  { unfold got. rewrite fgets_bytes_first_line, length_take, length_auto_array.
    unfold STRING_MAX. lia. }
  eexists. rewrite take_ge by (by rewrite length_store, length_auto_array).
  by apply store_segment.
Qed.

(** The reader on a file that opens and is not empty. *)
Lemma get_chromium_theme_content E theme path w s :
  w_fopen w path = Content s → s ≠ [] →
  get_chromium_theme E theme path w
  = (0%Z,
     store theme
       (take 11 (filter (λ c, digit_or_comma c)
                   (cstr (take 255 (first_line s))))),
     w).
Proof.
  intros Hopen Hs. unfold get_chromium_theme. rewrite Hopen.
  destruct s as [|c0 s0]; [done|].
  cbv zeta. destruct (fgets_line E (c0 :: s0)) as [rest ->].
  rewrite filter_loop_spec, cstr_app_nul, fgets_bytes_first_line.
  change (STRING_MAX - 1) with 255. change (11 - 0) with 11.
  unfold store. by rewrite poke_app.
Qed.
End Reader.

(** C3 as stated fails: a NUL in the line ends the scan, and the digit
    after it is not copied. *)
Lemma get_chromium_theme_stops_at_nul :
  let line := [x31; NUL; x32; x0a] in
  let '(r, theme, _) :=
    get_chromium_theme (Demo.E (Content line))
      (static_array CHROMIUM_THEME_MAX) Demo.theme_path
      (init_world (Demo.E (Content line))) in
  r = 0%Z
  ∧ cstr theme = lit "1"
  ∧ take 11 (filter (λ c, digit_or_comma c) (first_line line)) = lit "12".
Proof. vm_compute. done. Qed.

(** Storing a cut of kept characters in the 12-byte destination. *)
Lemma store_kept theme s :
  length theme = CHROMIUM_THEME_MAX →
  length (store theme (take 11 (filter (λ c, digit_or_comma c) s)))
  = CHROMIUM_THEME_MAX
  ∧ cstr (store theme (take 11 (filter (λ c, digit_or_comma c) s)))
    = take 11 (filter (λ c, digit_or_comma c) s).
Proof.
  intros Hlen. split; [by rewrite length_store|].
  apply cstr_store.
  - rewrite length_take, Hlen. unfold CHROMIUM_THEME_MAX. lia.
  - intros Hin. eapply filter_digit_or_comma_no_nul, subseteq_take, Hin.
Qed.

(** C3, as the program has it.  When the file opens and is not empty,
    the reader returns 0 and leaves in the destination exactly the ASCII
    digits and commas, in their order, of the first line as [fgets]
    delivers it (at most 255 bytes of it, up to its first NUL byte if
    there is one), cut after 11 characters; every other byte is dropped
    and nothing else changes. *)
Theorem get_chromium_theme_digits_and_commas
    (E : env) (theme path : list byte) (w : world) (s : list byte) :
  w_fopen w path = Content s → s ≠ [] → length theme = CHROMIUM_THEME_MAX →
  ∃ theme',
    get_chromium_theme E theme path w = (0%Z, theme', w)
    ∧ length theme' = CHROMIUM_THEME_MAX
    ∧ cstr theme'
      = take 11 (filter (λ c, digit_or_comma c) (cstr (take 255 (first_line s)))).
Proof.
  intros Hopen Hs Hlen.
  exists (store theme
            (take 11 (filter (λ c, digit_or_comma c)
                        (cstr (take 255 (first_line s)))))).
  split; [by apply get_chromium_theme_content|].
  by apply store_kept.
Qed.

Lemma get_chromium_theme_digits_and_commas_witness :
  ∃ theme',
    get_chromium_theme (Demo.E (Content (lit " rgb(23, 43, 67);" ++ [x0a; x39])))
      (static_array CHROMIUM_THEME_MAX) Demo.theme_path
      (init_world (Demo.E (Content (lit " rgb(23, 43, 67);" ++ [x0a; x39]))))
    = (0%Z, theme',
       init_world (Demo.E (Content (lit " rgb(23, 43, 67);" ++ [x0a; x39]))))
    ∧ length theme' = CHROMIUM_THEME_MAX
    ∧ cstr theme' = lit "23,43,67".
Proof.
  refine (get_chromium_theme_digits_and_commas
    (Demo.E (Content (lit " rgb(23, 43, 67);" ++ [x0a; x39])))
    (static_array CHROMIUM_THEME_MAX) Demo.theme_path
    (init_world (Demo.E (Content (lit " rgb(23, 43, 67);" ++ [x0a; x39]))))
    (lit " rgb(23, 43, 67);" ++ [x0a; x39]) _ _ _).
  - reflexivity.
  - discriminate.
  - reflexivity.
Defined.

(** The two failures the reader reports. *)
Lemma get_chromium_theme_open_fails E theme path w e :
  w_fopen w path = OpenFails e →
  get_chromium_theme E theme path w = (Zpos e, theme, set_errno (Zpos e) w).
Proof. intros Hopen. unfold get_chromium_theme. by rewrite Hopen. Qed.

Lemma get_chromium_theme_read_fails E theme path w e :
  w_fopen w path = ReadFails e →
  get_chromium_theme E theme path w = (Zpos e, theme, set_errno (Zpos e) w).
Proof. intros Hopen. unfold get_chromium_theme. by rewrite Hopen. Qed.

(** C7 does not hold of the program: on an empty file [fgets] returns
    NULL at end of file without setting [errno], so that with [errno]
    still 0 the reader returns 0, success, having read nothing. *)
Theorem get_chromium_theme_empty_file_succeeds
    (E : env) (theme path : list byte) (w : world) :
  w_fopen w path = Content [] → w_errno w = 0%Z →
  get_chromium_theme E theme path w = (0%Z, theme, w).
Proof. intros Hopen Herrno. unfold get_chromium_theme. by rewrite Hopen, Herrno. Qed.

Lemma get_chromium_theme_empty_file_succeeds_witness :
  get_chromium_theme (Demo.E (Content []))
    (static_array CHROMIUM_THEME_MAX) Demo.theme_path
    (init_world (Demo.E (Content [])))
  = (0%Z, static_array CHROMIUM_THEME_MAX, init_world (Demo.E (Content []))).
Proof.
  refine (get_chromium_theme_empty_file_succeeds (Demo.E (Content []))
    (static_array CHROMIUM_THEME_MAX) Demo.theme_path
    (init_world (Demo.E (Content []))) _ _); reflexivity.
Defined.

(** C10. Whenever the reader returns a nonzero value, the destination
    array is what it was before the call, byte for byte. *)
Theorem get_chromium_theme_error_keeps_buffer
    (E : env) (theme path : list byte) (w : world)
    (r : Z) (theme' : list byte) (w' : world) :
  get_chromium_theme E theme path w = (r, theme', w') → r ≠ 0%Z →
  theme' = theme.
Proof.
  unfold get_chromium_theme. intros Hrun Hr.
  destruct (w_fopen w path) as [e|e|[|c s]]; try by simplify_eq.
  destruct (filter_loop _ _ _) in Hrun. by simplify_eq.
Qed.

Lemma get_chromium_theme_error_keeps_buffer_witness :
  lit "23,43,67" ++ [NUL; x2a; x2a; x2a] = lit "23,43,67" ++ [NUL; x2a; x2a; x2a].
Proof.
  refine (get_chromium_theme_error_keeps_buffer
    (Demo.E (OpenFails Demo.ENOENT))
    (lit "23,43,67" ++ [NUL; x2a; x2a; x2a]) Demo.theme_path
    (init_world (Demo.E (OpenFails Demo.ENOENT)))
    2 _ (set_errno 2 (init_world (Demo.E (OpenFails Demo.ENOENT)))) _ _).
  - reflexivity.
  - discriminate.
Defined.
(** ** [send_msg] *)

Section Framing.
Lemma uchar_byte_of_N n : (n < 256)%N → uchar (byte_of_N n) = n.
Proof.
  intros Hn. unfold uchar, byte_of_N.
  destruct (Byte.of_N n) as [b|] eqn:Hb; simpl.
  - by apply Byte.to_of_N.
  - apply Byte.of_N_None_iff in Hb. lia.
Qed.

Lemma land_255 n : (N.land n 255 = n mod 256)%N.
Proof. change 255%N with (N.ones 8). by rewrite N.land_ones. Qed.

(** The prefix is the length, least significant byte first. *)
Lemma le_value_htole32 n : (n < 2 ^ 32)%N → le_value (htole32 n) = n.
Proof.
  intros Hn. unfold le_value, htole32. cbn [foldr].
  rewrite !land_255, !N.shiftr_div_pow2.
  rewrite !uchar_byte_of_N by (apply N.mod_lt; done).
  change (2 ^ 8)%N with 256%N. change (2 ^ 16)%N with 65536%N.
  change (2 ^ 24)%N with 16777216%N. change (2 ^ 32)%N with 4294967296%N in Hn.
  zify. Z.to_euclidean_division_equations. lia.
Qed.

Lemma length_htole32 n : length (htole32 n) = 4.
Proof. reflexivity. Qed.

Lemma uint32_small k : k < MSG_MAX → uint32 k = N.of_nat k.
Proof.
  intros Hk. unfold uint32. apply N.mod_small.
  unfold MSG_MAX in Hk. change (2 ^ 32)%N with 4294967296%N. lia.
Qed.

(** A reader of the stream gets the body back from its frame. *)
Lemma read_frame_frame body rest :
  length body < MSG_MAX → read_frame (frame body ++ rest) = Some (body, rest).
Proof.
  intros Hlen. unfold read_frame, frame.
  rewrite <- app_assoc.
  rewrite (take_app_length' (htole32 _)) by done.
  rewrite (drop_app_length' (htole32 _)) by done.
  rewrite le_value_htole32, uint32_small, Nat2N.id by
    (rewrite ?uint32_small by done; unfold MSG_MAX in *;
     change (2 ^ 32)%N with 4294967296%N; lia).
  rewrite !length_app, length_htole32.
  rewrite (proj2 (Nat.leb_le _ _)) by lia.
  rewrite (proj2 (Nat.leb_le _ _)) by lia.
  simpl. by rewrite take_app_length, drop_app_length.
Qed.
End Framing.
Section Encoder.
Implicit Types (E : env) (w : world) (rgb err : option (list byte)).

Lemma nul_free_check (l : list byte) :
  forallb (λ b, negb (Byte.eqb b NUL)) l = true → NUL ∉ l.
Proof.
  induction l as [|b l IH]; simpl; [intros _; apply not_elem_of_nil|].
  intros [Hb Hl]%andb_true_iff. rewrite not_elem_of_cons. split; [|auto].
  intros <-. discriminate Hb.
Qed.

Lemma length_json_escape_loop src di dst n :
  length (json_escape_loop src di dst n).2 = length dst.
Proof.
  revert di dst. induction src as [|c src IH]; intros di dst; simpl; [done|].
  destruct (n <=? di + 6); [done|]. by rewrite IH, length_poke.
Qed.

Lemma length_json_escape src dst n :
  length (json_escape src dst n).2 = length dst.
Proof.
  unfold json_escape. destruct (n =? 0); [done|].
  pose proof (length_json_escape_loop src 0 dst n) as Hlen.
  destruct (json_escape_loop src 0 dst n) as [[di|] dst']; simpl in *; [|done].
  destruct (n <=? di); simpl; [done|]. by rewrite length_insert.
Qed.

Lemma escaped_no_nul text : NUL ∉ escaped text.
Proof.
  unfold escaped. case_decide; [apply escape_all_no_nul|].
  by apply nul_free_check.
Qed.

(** What [escape_into] leaves: the escaping, or the fallback literal. *)
Lemma escape_into_spec text scratch :
  length scratch = MSG_MAX →
  length (escape_into text scratch) = MSG_MAX
  ∧ cstr (escape_into text scratch) = escaped text.
Proof.
  intros Hlen. unfold escape_into, escaped.
  pose proof (length_json_escape (cstr text) scratch MSG_MAX) as Hd.
  case_decide as Hcap.
  - rewrite json_escape_fits by done.
    pose proof (needed_capacity_length (cstr text)).
    destruct (Z.ltb_spec (Z.of_nat (length (escape_all (cstr text)))) 0);
      [lia|].
    split; [by rewrite length_store|].
    apply cstr_store; [lia | apply escape_all_no_nul].
  - pose proof (json_escape_too_long (cstr text) scratch MSG_MAX) as Hfail.
    destruct (json_escape (cstr text) scratch MSG_MAX) as [r d].
    simpl in Hd, Hfail. rewrite Hfail by lia. simpl.
    split; [by rewrite length_insert, length_store, Hd|].
    rewrite store_segment by (rewrite Hd, Hlen; vm_compute; lia).
    rewrite insert_app_r_alt by (vm_compute; lia).
    change (511 - length (lit "error too long")) with (S 496).
    change (<[S 496:=NUL]> (NUL :: ?l)) with (NUL :: <[496:=NUL]> l).
    by rewrite cstr_app_nul.
Qed.

Lemma body_of_no_nul E rgb err en : NUL ∉ body_of E rgb err en.
Proof.
  unfold body_of, fmt_rgb_error, fmt_rgb, fmt_error, fmt_null, key.
  destruct rgb, err;
    repeat (rewrite not_elem_of_app; split);
    first [ apply cstr_no_nul | apply escaped_no_nul
          | by apply nul_free_check ].
Qed.
End Encoder.
Section EncoderRun.
Implicit Types (E : env) (w : world) (rgb err : option (list byte)).

(** The text [send_msg] formats is [body_of]. *)
Lemma send_msg_text E rgb err en w :
  buffers_ok w →
  let e1 := match err with
            | Some e => escape_into e (<[0:=NUL]> (esc_err w))
            | None => <[0:=NUL]> (esc_err w)
            end in
  let e2 := match err with
            | Some _ => escape_into (env_strerror E en) (<[0:=NUL]> (esc_syserr w))
            | None => <[0:=NUL]> (esc_syserr w)
            end in
  length e1 = MSG_MAX ∧ length e2 = MSG_MAX
  ∧ match rgb, err with
    | Some c, Some _ => fmt_rgb_error (cstr c) (cstr e1) (cstr e2)
    | Some c, None => fmt_rgb (cstr c)
    | None, Some _ => fmt_error (cstr e1) (cstr e2)
    | None, None => fmt_null
    end = body_of E rgb err en.
Proof.
  intros (Hm & H1 & H2). cbv zeta.
  destruct err as [e|].
  - destruct (escape_into_spec e (<[0:=NUL]> (esc_err w))) as [-> ->];
      [by rewrite length_insert|].
    destruct (escape_into_spec (env_strerror E en) (<[0:=NUL]> (esc_syserr w)))
      as [-> ->]; [by rewrite length_insert|].
    by destruct rgb.
  - rewrite !length_insert. by destruct rgb.
Qed.

(** [send_msg] after its formatting steps: the message is dropped when
    it does not fit, and otherwise written in two [fwrite]s. *)
Lemma send_msg_unfold E rgb err en w :
  buffers_ok w →
  ∃ m e1 e2,
    buffers_ok (set_buffers m e1 e2 w)
    ∧ send_msg E rgb err en w
      = let text := body_of E rgb err en in
        let w1 := set_buffers m e1 e2 w in
        if decide (length text < MSG_MAX) then
          let '(ok1, w2) := fwrite_stdout (htole32 (uint32 (length text))) w1 in
          if ok1 then
            let '(ok2, w3) := fwrite_stdout text w2 in
            if ok2 then fflush_stdout w3
          else eprint (could_not_send E (w_errno w3)) w3
          else eprint (could_not_send E (w_errno w2)) w2
        else eprint (could_not_send E ERANGE) w1.
Proof.
  intros Hbuf. pose proof (send_msg_text E rgb err en w Hbuf) as Htext.
  cbv zeta in Htext. destruct Htext as (He1 & He2 & Htext).
  destruct Hbuf as (Hm & _ & _).
  unfold send_msg. cbv zeta.
  set (e1 := match err with Some e => _ | None => _ end) in *.
  set (e2 := match match err with Some _ => _ | None => _ end
             with Some s => _ | None => _ end).
  assert (He2' : e2 = match err with
                      | Some _ => escape_into (env_strerror E en)
                                    (<[0:=NUL]> (esc_syserr w))
                      | None => <[0:=NUL]> (esc_syserr w)
                      end) by (by destruct err).
  rewrite <- He2' in He2, Htext. clearbody e1 e2.
  rewrite Htext. set (text := body_of E rgb err en).
  unfold snprintf_werr. change (MSG_MAX =? 0) with false. cbv iota.
  destruct (Nat.leb_spec MSG_MAX (length text)) as [Hlong|Hfits].
  - eexists _, e1, e2. split.
    2:{ rewrite decide_False by (unfold ERANGE; lia).
        rewrite decide_False by lia. done. }
    repeat split; simpl; [by rewrite length_store, length_insert|done..].
  - eexists _, e1, e2. split.
    2:{ rewrite decide_True by done. rewrite decide_True by done.
        assert (Hstr : cstr (store (<[0:=NUL]> (msg w)) text) = text).
        { apply cstr_store; [by rewrite length_insert, Hm|].
          apply body_of_no_nul. }
        unfold strlen. rewrite Hstr.
        rewrite uint32_small, Nat2N.id by done.
        assert (Htake : take (length text) (store (<[0:=NUL]> (msg w)) text)
                        = text).
        { rewrite store_segment by (by rewrite length_insert, Hm).
          by rewrite take_app_length. }
        by rewrite Htake. }
    repeat split; simpl; [by rewrite length_store, length_insert|done..].
Qed.
End EncoderRun.
Lemma snoc_neq {A} (l : list A) (x : A) : l ++ [x] ≠ l.
Proof.
  intros H%(f_equal length). rewrite length_app in H. simpl in H. lia.
Qed.

(** The ways a message that fits can go, by the results of the two
    [fwrite]s and of the [fflush]. *)
Lemma send_msg_cases E rgb err en w :
  buffers_ok w →
  let body := body_of E rgb err en in
  let w' := send_msg E rgb err en w in
  buffers_ok w' ∧ w_fopen w' = w_fopen w ∧ notify_fd w' = notify_fd w
  ∧ w_closed w' = w_closed w
  ∧ if decide (length body < MSG_MAX) then
      match w_writes w with
      | Some (e, k) :: ws =>
          w_stdout w'
          = w_stdout w ++ take (min k 3) (htole32 (uint32 (length body)))
          ∧ w_writes w' = ws ∧ w_errno w' = Zpos e
          ∧ w_stderr w' = w_stderr w ++ [could_not_send E (Zpos e)]
      | _ :: Some (e, k) :: ws =>
          w_stdout w'
          = w_stdout w ++ htole32 (uint32 (length body))
              ++ take (min k (length body - 1)) body
          ∧ w_writes w' = ws ∧ w_errno w' = Zpos e
          ∧ w_stderr w' = w_stderr w ++ [could_not_send E (Zpos e)]
      | ws =>
          w_stdout w' = w_stdout w ++ frame body
          ∧ w_writes w' = tail (tail (tail ws))
          ∧ w_errno w' = match ws with
                         | _ :: _ :: Some (e, _) :: _ => Zpos e
                         | _ => w_errno w
                         end
          ∧ w_stderr w' = w_stderr w
      end
    else
      w_stdout w' = w_stdout w ∧ w_writes w' = w_writes w
      ∧ w_errno w' = w_errno w
      ∧ w_stderr w' = w_stderr w ++ [could_not_send E ERANGE].
Proof.
  intros Hbuf. cbv zeta.
  destruct (send_msg_unfold E rgb err en w Hbuf) as (m & e1 & e2 & Hbuf' & ->).
  cbv zeta. unfold frame.
  destruct Hbuf' as (Hm & He1 & He2). simpl in Hm, He1, He2.
  destruct (decide (length (body_of E rgb err en) < MSG_MAX));
    [|by repeat split].
  unfold fflush_stdout, fwrite_stdout, buffers_ok. simpl.
  destruct (w_writes w) as [|[[e k]|] [|[[e' k']|] [|[[e'' k'']|] ws]]]; simpl;
    rewrite <- ?app_assoc; by repeat split.
Qed.

(** C2. Whenever [send_msg] sends its message (it reports no failure on
    the diagnostic stream), what it appends to standard output is the
    length of the JSON body as four bytes, least significant first,
    followed by exactly the bytes of the body and nothing more: no NUL
    is in the body or after it, and a reader that takes the four bytes
    as a little-endian number and then that many bytes gets the body. *)
Theorem send_msg_frame (E : env) (rgb err : option (list byte)) (en : Z)
    (w : world) :
  buffers_ok w →
  w_stderr (send_msg E rgb err en w) = w_stderr w →
  let body := body_of E rgb err en in
  let header := htole32 (uint32 (length body)) in
  w_stdout (send_msg E rgb err en w) = w_stdout w ++ header ++ body
  ∧ length header = 4
  ∧ le_value header = N.of_nat (length body)
  ∧ length body < MSG_MAX
  ∧ (NUL ∉ body)
  ∧ (∀ rest, read_frame (header ++ body ++ rest) = Some (body, rest)).
Proof.
  intros Hbuf Hquiet. cbv zeta.
  destruct (send_msg_cases E rgb err en w Hbuf) as (_ & _ & _ & _ & Hcases).
  cbv zeta in Hcases.
  destruct (decide (length (body_of E rgb err en) < MSG_MAX)) as [Hfits|Hlong].
  2:{ destruct Hcases as (_ & _ & _ & Herr). rewrite Herr in Hquiet.
      by apply snoc_neq in Hquiet. }
  assert (Hout : w_stdout (send_msg E rgb err en w)
                 = w_stdout w ++ frame (body_of E rgb err en)).
  { destruct (w_writes w) as [|[[e k]|] [|[[e' k']|] ws]];
      destruct Hcases as (Hout & _ & _ & Herr); try done;
      rewrite Herr in Hquiet; by apply snoc_neq in Hquiet. }
  split; [done|]. split; [done|]. split.
  { rewrite le_value_htole32, uint32_small; [done..|].
    rewrite uint32_small by done. unfold MSG_MAX in Hfits.
    change (2 ^ 32)%N with 4294967296%N. lia. }
  split; [done|]. split; [apply body_of_no_nul|].
  intros rest. rewrite app_assoc. by apply read_frame_frame.
Qed.

Lemma send_msg_frame_witness :
  w_stdout (send_msg (Demo.E (Content [])) (Some (lit "23,43,67")) None 0
              (init_world (Demo.E (Content []))))
  = [x1f; x00; x00; x00] ++ fmt_rgb (lit "23,43,67").
Proof.
  refine (proj1 (send_msg_frame (Demo.E (Content [])) (Some (lit "23,43,67"))
                   None 0 (init_world (Demo.E (Content []))) _ _)).
  - repeat split; reflexivity.
  - reflexivity.
Defined.
(** ** The event loop *)

Section Overrun.
Implicit Types (E : env) (w : world) (buf path theme : list byte).




(** The size of a record is that of its header and of the value of its
    length field. *)
Lemma ev_size_same_length buf buf' off :
  Forall (λ i, buf' !! i = buf !! i) (len_field off) →
  ev_size buf' off = ev_size buf off.
Proof.
  unfold len_field. cbn [seq]. intros Hsame.
  repeat match goal with
         | H : Forall _ (_ :: _) |- _ =>
             apply Forall_cons in H; destruct H as [? H]
         end.
  unfold ev_size, ev_len, u32_at, peek.
  replace (off + 12 + 1) with (S (off + 12)) by lia.
  replace (off + 12 + 2) with (S (S (off + 12))) by lia.
  replace (off + 12 + 3) with (S (S (S (off + 12)))) by lia.
  congruence.
Qed.


(** A record whose declared size would run past the [n] bytes read
    ends the processing of the batch at once: the theme is not read,
    nothing is sent, and the process does not exit. *)
Lemma events_overrun_stops E path buf n off theme w :
  off < n → n < off + ev_size buf off →
  events E path buf n off theme w = Running theme w.
Proof.
  intros Hoff Hover. simp events.
  destruct (decide (off < n)) as [?|?]; [|lia]. simpl.
  destruct (Nat.ltb_spec n (off + ev_size buf off)); [|lia].
  reflexivity.
Qed.

(** When the header of such a record lies within the bytes read, the
    length field is all the loop takes from it: the batch ends in the
    same way whatever the other bytes of the array are. *)
Lemma events_overrun_only_length E path buf buf' n off theme w :
  off + EVENT_HEADER ≤ n → n < off + ev_size buf off →
  Forall (λ i, i < n ∧ buf' !! i = buf !! i) (len_field off) →
  events E path buf' n off theme w = Running theme w.
Proof.
  unfold EVENT_HEADER. intros Hhead Hover Hsame.
  apply events_overrun_stops; [lia|].
  rewrite (ev_size_same_length buf buf'); [done|].
  eapply Forall_impl; [exact Hsame|]. by intros i [_ ?].
Qed.
End Overrun.



(** The batch of the witness, as read and with a stale length left in
    the array by an earlier batch: the sizes computed differ, and differ
    from what the eight bytes read could hold. *)
Example events_stale_length :
  let fresh := take 8 (Demo.record IN_MOVED_TO (lit "theme") 11) in
  let buf := fresh ++ replicate 4088 NUL in
  let buf' := fresh ++ drop 8 Demo.overrunning ++ replicate 4064 NUL in
  take 8 buf = take 8 buf'
  ∧ ev_size buf 0 = 16 ∧ ev_size buf' 0 = 4016.
Proof. vm_compute. done. Qed.

(** A record whose header lies within the bytes read and whose declared
    size runs past them: the batch ends, whatever its mask and name. *)
Example events_overrun_example :
  let E := Demo.E (Content (lit "1,2,3")) in
  events E Demo.theme_path Demo.overrunning 32 0
    (static_array CHROMIUM_THEME_MAX) (init_world E)
  = Running (static_array CHROMIUM_THEME_MAX) (init_world E).
Proof.
  intros E. apply events_overrun_stops; [lia|]. vm_compute. lia.
Qed.
(** ** The messages of a whole run *)

Section Run.
Implicit Types (E : env) (w : world) (theme path buf : list byte).

Lemma json_string_body_escaped text rest :
  json_string_body (escaped text ++ rest) = json_string_body rest.
Proof.
  unfold escaped. case_decide; [apply json_string_body_escape_all|done].
Qed.

Lemma normal_body_rgb E theme :
  theme_ok theme → normal_body (body_of E (Some theme) None 0).
Proof. intros (_ & Hkept & Hlen). left. by exists (cstr theme). Qed.

Lemma normal_body_error E context en :
  normal_body (body_of E None (Some context) en).
Proof.
  right. eexists _, _. split; [done|].
  rewrite json_string_body_escaped.
  change (json_string_body (lit ": " ++ ?e)) with (json_string_body e).
  rewrite <- (app_nil_r (escaped _)). by rewrite json_string_body_escaped.
Qed.

Lemma stream_ok_snoc out body :
  stream_ok out → normal_body body → stream_ok (out ++ frame body).
Proof.
  intros (bodies & -> & Hall) Hbody. exists (bodies ++ [body]). split.
  - rewrite map_app, concat_app. simpl. by rewrite app_nil_r.
  - apply Forall_app. by split; [|constructor].
Qed.

Lemma writes_succeed_cases ws :
  writes_succeed ws →
  writes_succeed (tail (tail (tail ws)))
  ∧ match ws with
    | Some _ :: _ | _ :: Some _ :: _ | _ :: _ :: Some _ :: _ => False
    | _ => True
    end.
Proof.
  unfold writes_succeed. intros Hws.
  destruct Hws as [|o ws Ho Hws]; [by split|]. subst o.
  destruct Hws as [|o ws Ho Hws]; [by split|]. subst o.
  destruct Hws as [|o ws Ho Hws]; [by split|]. subst o. by split.
Qed.

(** What a send does when every write succeeds. *)
Lemma send_msg_succeeds E rgb err en w :
  buffers_ok w → writes_succeed (w_writes w) →
  buffers_ok (send_msg E rgb err en w)
  ∧ writes_succeed (w_writes (send_msg E rgb err en w))
  ∧ w_errno (send_msg E rgb err en w) = w_errno w
  ∧ w_stdout (send_msg E rgb err en w)
    = w_stdout w
      ++ (if decide (length (body_of E rgb err en) < MSG_MAX)
          then frame (body_of E rgb err en) else []).
Proof.
  intros Hbuf Hws.
  destruct (send_msg_cases E rgb err en w Hbuf) as (Hbuf' & _ & _ & _ & Hcases).
  cbv zeta in Hcases. split; [done|].
  destruct (writes_succeed_cases _ Hws) as [Htail Hnone].
  destruct (decide (length (body_of E rgb err en) < MSG_MAX)).
  - destruct (w_writes w) as [|[[e k]|] [|[[e' k']|] [|[[e'' k'']|] ws]]];
      try done; by destruct Hcases as (-> & -> & -> & _).
  - destruct Hcases as (-> & -> & -> & _). by rewrite app_nil_r.
Qed.

(** Sending a normal body keeps the run healthy. *)
Lemma send_msg_healthy E rgb err en w :
  healthy w → normal_body (body_of E rgb err en) →
  healthy (send_msg E rgb err en w)
  ∧ w_fopen (send_msg E rgb err en w) = w_fopen w
  ∧ notify_fd (send_msg E rgb err en w) = notify_fd w.
Proof.
  intros (Hbuf & Hws & Hout) Hbody.
  destruct (send_msg_cases E rgb err en w Hbuf) as (_ & Hfs & Hfd & _ & _).
  destruct (send_msg_succeeds E rgb err en w Hbuf Hws)
    as (Hbuf' & Hws' & _ & Hsent).
  split; [|done]. split; [done|]. split; [done|]. rewrite Hsent.
  case_decide; [by apply stream_ok_snoc | by rewrite app_nil_r].
Qed.

Lemma healthy_set_errno e w : healthy w → healthy (set_errno e w).
Proof. done. Qed.

Lemma healthy_set_fopen fs w : healthy w → healthy (set_fopen fs w).
Proof. done. Qed.

Lemma healthy_set_notify_fd fd w : healthy w → healthy (set_notify_fd fd w).
Proof. done. Qed.

Lemma healthy_clean_exit {A} (P : A → Prop) err w :
  healthy w → outcome_healthy P (clean_exit err w).
Proof. unfold clean_exit. simpl. by destruct (0 <=? notify_fd w)%Z. Qed.

Lemma Forall_filter_digit_or_comma s :
  Forall (λ c, digit_or_comma c) (filter (λ c, digit_or_comma c) s).
Proof. apply Forall_forall. by intros c [? _]%list_elem_of_filter. Qed.

(** The reader keeps its destination a colour string and touches only
    [errno]. *)
Lemma get_chromium_theme_healthy E theme path w :
  theme_ok theme → healthy w →
  let '(_, theme', w') := get_chromium_theme E theme path w in
  theme_ok theme' ∧ healthy w'.
Proof.
  intros Htheme Hw.
  destruct (w_fopen w path) as [e|e|s] eqn:Hopen.
  - by rewrite (get_chromium_theme_open_fails _ _ _ _ _ Hopen).
  - by rewrite (get_chromium_theme_read_fails _ _ _ _ _ Hopen).
  - destruct (decide (s = [])) as [->|Hs].
    { unfold get_chromium_theme. by rewrite Hopen. }
    rewrite (get_chromium_theme_content E theme path w s Hopen Hs).
    destruct Htheme as (Hlen & _).
    destruct (store_kept theme (cstr (take 255 (first_line s))) Hlen)
      as [Hlen' Hstr].
    split; [|done]. split; [done|]. rewrite Hstr. split.
    + apply Forall_take, Forall_filter_digit_or_comma.
    + rewrite length_take. lia.
Qed.

Lemma reread_healthy E path theme w :
  theme_ok theme → healthy w →
  outcome_healthy theme_ok (reread E path theme w).
Proof.
  intros Htheme Hw. unfold reread.
  pose proof (get_chromium_theme_healthy E theme path w Htheme Hw) as Hread.
  destruct (get_chromium_theme E theme path w) as [[r theme'] w'].
  destruct Hread as [Htheme' Hw'].
  case_decide.
  - simpl. split; [done|].
    by apply send_msg_healthy, normal_body_rgb.
  - apply healthy_clean_exit.
    by apply send_msg_healthy, normal_body_error.
Qed.

Lemma events_healthy E path buf n off theme w :
  theme_ok theme → healthy w →
  outcome_healthy theme_ok (events E path buf n off theme w).
Proof.
  funelim (events E path buf n off theme w); intros Htheme Hw;
    try done.
  - match goal with
    | Heq : (if qualifies _ _ then _ else _) = Running _ _ |- _ =>
        rename Heq into Hstep
    end.
    match goal with
    | IH : theme_ok _ → healthy _ → _ |- _ => apply IH
    end.
    all: destruct (qualifies buf off);
      [ pose proof (reread_healthy E path chromium_theme w Htheme Hw) as Hr;
        rewrite Hstep in Hr; apply Hr
      | by simplify_eq ].
  - match goal with
    | Heq : (if qualifies _ _ then _ else _) = Exited _ _ |- _ =>
        rename Heq into Hstep
    end.
    destruct (qualifies buf off); [|done].
    pose proof (reread_healthy E path chromium_theme w Htheme Hw) as Hr.
    by rewrite Hstep in Hr.
Qed.
End Run.

(** ** The shape of the bodies *)

Section Shape.
Implicit Types (c : byte) (s r t : list byte).

Lemma skip_digits_close s t :
  skip_digits (s ++ x5d :: t) = skip_digits s ++ x5d :: t.
Proof.
  induction s as [|c s IH]; [done|]. simpl.
  destruct (is_digit c); [apply IH | done].
Qed.

Lemma digits1_close s t :
  digits1 (s ++ x5d :: t) = (λ r, r ++ x5d :: t) <$> digits1 s.
Proof.
  destruct s as [|c s]; [done|]. simpl.
  destruct (is_digit c); [|done]. simpl. by rewrite skip_digits_close.
Qed.

Lemma skip_digits_kept s :
  Forall (λ c, digit_or_comma c) s →
  Forall (λ c, digit_or_comma c) (skip_digits s).
Proof.
  induction 1 as [|c s Hc Hs IH]; [done|]. simpl.
  destruct (is_digit c); [done | by constructor].
Qed.

Lemma plain_number_kept s r :
  Forall (λ c, digit_or_comma c) s → plain_number s = Some r →
  Forall (λ c, digit_or_comma c) r.
Proof.
  intros Hs. destruct Hs as [|c s Hc Hs]; [done|].
  pose proof (skip_digits_kept s Hs).
  unfold plain_number, digits1.
  destruct c; try done; simpl; intros; by simplify_eq.
Qed.

Lemma plain_number_close s t :
  plain_number (s ++ x5d :: t) = (λ r, r ++ x5d :: t) <$> plain_number s.
Proof.
  destruct s as [|c s]; [done|].
  unfold plain_number.
  destruct c; try done; apply (digits1_close (_ :: s)).
Qed.

(** In a string of digits and commas closed by a bracket the number read
    by [json_number] is the plain one. *)
Lemma json_number_close s t :
  Forall (λ c, digit_or_comma c) s →
  json_number (s ++ x5d :: t) = (λ r, r ++ x5d :: t) <$> plain_number s.
Proof.
  intros Hs. rewrite <- plain_number_close.
  destruct (plain_number s) as [r|] eqn:Hr.
  - pose proof (plain_number_kept s r Hs Hr) as Hkept.
    assert (Hclose : plain_number (s ++ x5d :: t) = Some (r ++ x5d :: t))
      by (by rewrite plain_number_close, Hr).
    unfold json_number. rewrite Hclose.
    destruct Hs as [|c s Hc Hs]; [done|].
    assert (Hplain : match (c :: s) ++ x5d :: t with
                     | x2d :: u => u
                     | _ => (c :: s) ++ x5d :: t
                     end = (c :: s) ++ x5d :: t)
      by (by destruct c).
    rewrite Hplain. unfold plain_number in Hclose. rewrite Hclose. simpl.
    destruct Hkept as [|c' r' Hc' _]; [done|].
    by destruct c'.
  - assert (Hclose : plain_number (s ++ x5d :: t) = None)
      by (by rewrite plain_number_close, Hr).
    rewrite Hclose. unfold json_number.
    destruct Hs as [|c s Hc Hs]; [done|].
    assert (Hplain : match (c :: s) ++ x5d :: t with
                     | x2d :: u => u
                     | _ => (c :: s) ++ x5d :: t
                     end = (c :: s) ++ x5d :: t)
      by (by destruct c).
    rewrite Hplain. unfold plain_number in Hclose. by rewrite Hclose.
Qed.

Lemma expect_comma_close s t :
  Forall (λ c, digit_or_comma c) s →
  expect (lit ",") (s ++ x5d :: t) = (λ r, r ++ x5d :: t) <$> expect (lit ",") s.
Proof.
  intros Hs. destruct s as [|c s]; [done|]. simpl. by case_decide.
Qed.

Lemma expect_comma_kept s r :
  Forall (λ c, digit_or_comma c) s → expect (lit ",") s = Some r →
  Forall (λ c, digit_or_comma c) r.
Proof.
  intros Hs. destruct Hs as [|c s Hc Hs]; [done|]. simpl.
  case_decide; [|done]. by intros [= <-].
Qed.

Lemma expect_close s t :
  Forall (λ c, digit_or_comma c) s →
  expect (lit "]") (s ++ x5d :: t) = match s with [] => Some t | _ => None end.
Proof.
  intros Hs. destruct Hs as [|c s Hc Hs]; [done|]. simpl.
  rewrite decide_False; [done|]. intros <-. done.
Qed.

(** Reading three numbers in [[s]], whatever follows the bracket. *)
Lemma three_numbers_close s t :
  Forall (λ c, digit_or_comma c) s →
  three_numbers (lit "[" ++ s ++ x5d :: t)
  = match after_three_numbers s with Some [] => Some t | _ => None end.
Proof.
  intros Hs. unfold three_numbers, after_three_numbers.
  change (expect (lit "[") (lit "[" ++ s ++ x5d :: t)) with (Some (s ++ x5d :: t)).
  cbn [mbind option_bind].
  rewrite json_number_close by done.
  destruct (plain_number s) as [r1|] eqn:H1; [|done]. cbn [fmap option_fmap option_map mbind option_bind].
  pose proof (plain_number_kept _ _ Hs H1) as Hk1.
  rewrite expect_comma_close by done.
  destruct (expect (lit ",") r1) as [r2|] eqn:H2; [|done]. cbn [fmap option_fmap option_map mbind option_bind].
  pose proof (expect_comma_kept _ _ Hk1 H2) as Hk2.
  rewrite json_number_close by done.
  destruct (plain_number r2) as [r3|] eqn:H3; [|done]. cbn [fmap option_fmap option_map mbind option_bind].
  pose proof (plain_number_kept _ _ Hk2 H3) as Hk3.
  rewrite expect_comma_close by done.
  destruct (expect (lit ",") r3) as [r4|] eqn:H4; [|done]. cbn [fmap option_fmap option_map mbind option_bind].
  pose proof (expect_comma_kept _ _ Hk3 H4) as Hk4.
  rewrite json_number_close by done.
  destruct (plain_number r4) as [r5|] eqn:H5; [|done]. cbn [fmap option_fmap option_map mbind option_bind].
  pose proof (plain_number_kept _ _ Hk4 H5) as Hk5.
  by rewrite expect_close.
Qed.

Lemma number_triple_spec s :
  Forall (λ c, digit_or_comma c) s →
  number_triple s = bool_decide (after_three_numbers s = Some []).
Proof.
  intros Hs. unfold number_triple.
  change (lit "[" ++ s ++ lit "]") with (lit "[" ++ s ++ x5d :: []).
  rewrite three_numbers_close by done.
  destruct (after_three_numbers s) as [[|c r]|];
    [by rewrite !bool_decide_eq_true_2
    |by rewrite !bool_decide_eq_false_2..].
Qed.

(** A colour body has the shape of the protocol exactly when the text
    between its brackets is three numbers. *)
Lemma protocol_message_rgb s :
  Forall (λ c, digit_or_comma c) s →
  protocol_message (fmt_rgb s) = number_triple s.
Proof.
  intros Hs. rewrite number_triple_spec by done.
  unfold protocol_message, fmt_rgb, key.
  change (expect (lit "{" ++ ([dq] ++ lit "rgb" ++ [dq]) ++ lit ":")
            (lit "{" ++ ([dq] ++ lit "rgb" ++ [dq]) ++ lit ":[" ++ s
               ++ lit "]," ++ ([dq] ++ lit "error" ++ [dq]) ++ lit ":null}"))
    with (Some (lit "[" ++ s ++ x5d
                  :: lit "," ++ ([dq] ++ lit "error" ++ [dq]) ++ lit ":null}")).
  cbv iota beta.
  change (expect (lit "null") (lit "[" ++ ?x)) with (@None (list byte)).
  cbv iota beta.
  rewrite three_numbers_close by done.
  destruct (after_three_numbers s) as [[|c r]|];
    [by rewrite !bool_decide_eq_true_2
    |by rewrite bool_decide_eq_false_2..].
Qed.

(** Reading a string body up to the quote that closes it. *)
Lemma json_string_tail_body (n : nat) :
  ∀ e fuel rest,
    length e ≤ n → json_string_body e = true → length e < fuel →
    json_string_tail fuel (e ++ dq :: rest) = Some rest.
Proof.
  induction n as [|n IH]; intros e fuel rest Hn Hbody Hfuel.
  { destruct e; [|simpl in Hn; lia]. destruct fuel; [lia|]. done. }
  destruct e as [|c e]; [destruct fuel; [lia|done]|].
  destruct fuel as [|fuel]; [lia|]. simpl in Hn, Hfuel.
  cbn [json_string_body] in Hbody. cbn [app json_string_tail].
  destruct (decide (c = x5c)) as [->|Hc].
  - rewrite decide_False by done.
    destruct e as [|e' e]; [done|]. simpl in Hn, Hfuel. cbn [app].
    destruct (decide (e' = x75)) as [->|He'].
    + destruct e as [|h1 [|h2 [|h3 [|h4 e]]]]; try done.
      simpl in Hn, Hfuel. cbn [app].
      destruct (is_hex_digit h1 && is_hex_digit h2 && is_hex_digit h3
                && is_hex_digit h4); [|done].
      apply IH; [lia | done | lia].
    + destruct (simple_escape e'); [|done].
      apply IH; [lia | done | lia].
  - destruct (decide (c = dq)); [done|].
    destruct (uchar c <? 32)%N; [done|].
    apply IH; [lia | done | lia].
Qed.

(** An error body has the shape of the protocol. *)
Lemma protocol_message_error e1 e2 :
  json_string_body (e1 ++ lit ": " ++ e2) = true →
  protocol_message (fmt_error e1 e2) = true.
Proof.
  intros Hbody. unfold protocol_message, fmt_error, key.
  change (expect (lit "{" ++ ([dq] ++ lit "rgb" ++ [dq]) ++ lit ":")
            (lit "{" ++ ([dq] ++ lit "rgb" ++ [dq]) ++ lit ":null,"
               ++ ([dq] ++ lit "error" ++ [dq]) ++ lit ":" ++ [dq]
               ++ e1 ++ lit ": " ++ e2 ++ [dq] ++ lit "}"))
    with (Some (lit "null," ++ ([dq] ++ lit "error" ++ [dq]) ++ lit ":"
                  ++ [dq] ++ e1 ++ lit ": " ++ e2 ++ [dq] ++ lit "}")).
  cbv iota beta.
  change (expect (lit "null") (lit "null," ++ ?x)) with (Some (lit "," ++ x)).
  cbv iota beta.
  change (expect (lit "," ++ ([dq] ++ lit "error" ++ [dq]) ++ lit ":" ++ [dq])
            (lit "," ++ ([dq] ++ lit "error" ++ [dq]) ++ lit ":" ++ [dq] ++ ?x))
    with (Some x).
  cbv iota beta.
  apply bool_decide_eq_true_2.
  replace (e1 ++ lit ": " ++ e2 ++ [dq] ++ lit "}")
    with ((e1 ++ lit ": " ++ e2) ++ dq :: lit "}")
    by (by rewrite <- !app_assoc).
  apply (json_string_tail_body (length (e1 ++ lit ": " ++ e2))); [done..|].
  rewrite (length_app (_ ++ _)). simpl. lia.
Qed.

Lemma normal_body_message body : normal_body body → normal_message body.
Proof.
  intros [(s & -> & Hs & Hlen)|(e1 & e2 & -> & Hbody)].
  - left. exists s. by rewrite protocol_message_rgb.
  - right. exists e1, e2. by rewrite protocol_message_error.
Qed.
End Shape.
Section WholeRun.
Implicit Types (E : env) (w : world) (theme path buf : list byte).

Lemma steady_healthy E path inputs buf theme w :
  theme_ok theme → healthy w →
  outcome_healthy (λ _, True) (steady E path inputs buf theme w).
Proof.
  revert buf theme w.
  induction inputs as [|[fs|e|bytes] inputs IH]; intros buf theme w Htheme Hw.
  - done.
  - by apply IH.
  - cbn [steady]. cbv zeta. case_decide; [by apply IH|].
    by apply healthy_clean_exit, send_msg_healthy, normal_body_error.
  - cbn [steady]. cbv zeta.
    destruct (length (take INOTIFY_BUF_LEN bytes) =? 0); [by apply IH|].
    unfold mbind, M_bind.
    pose proof (events_healthy E path
      (take INOTIFY_BUF_LEN bytes
         ++ drop (length (take INOTIFY_BUF_LEN bytes)) buf)
      (length (take INOTIFY_BUF_LEN bytes)) 0 theme w Htheme Hw) as Hev.
    destruct (events _ _ _ _ _ _ _) as [theme' w'|st w']; [|done].
    destruct Hev. by apply IH.
Qed.

Lemma healthy_init_world E :
  writes_succeed (env_writes E) → healthy (init_world E).
Proof.
  intros Hws. split; [by repeat split|]. split; [done|].
  by exists [].
Qed.

Lemma snprintf_werr_length s maxlen text :
  length (snprintf_werr s maxlen text).2 = length s.
Proof.
  unfold snprintf_werr. destruct (maxlen =? 0); [done|].
  destruct (maxlen <=? length text); simpl; apply length_store.
Qed.

(** The path functions change nothing of the world but [errno]. *)
Lemma get_current_path_healthy E current_path w :
  healthy w → healthy (get_current_path E current_path w).2.
Proof.
  intros Hw. unfold get_current_path, get_home, dir_exists.
  destruct (env_HOME E) as [h|]; [|destruct (env_passwd E) as [d|[e|]]];
    repeat first [ done | case_decide
                 | destruct (snprintf_werr _ _ _) as [? ?]
                 | destruct (env_opendir E _) ].
Qed.

Lemma get_chromium_theme_path_healthy chromium_theme_path current_path w :
  healthy w →
  healthy (get_chromium_theme_path chromium_theme_path current_path w).2.
Proof.
  intros Hw. unfold get_chromium_theme_path, file_exists.
  destruct (snprintf_werr _ _ _) as [? ?]. case_decide; [|done].
  by destruct (w_fopen w _).
Qed.

Lemma theme_ok_static : theme_ok (static_array CHROMIUM_THEME_MAX).
Proof. split; [done|]. split; [by constructor | simpl; lia]. Qed.

Lemma main_healthy E inputs :
  writes_succeed (env_writes E) →
  outcome_healthy (λ _, True) (main E inputs).
Proof.
  intros Hws. unfold main. cbv zeta.
  pose proof (get_current_path_healthy E (static_array STRING_MAX)
                (init_world E) (healthy_init_world E Hws)) as H1.
  destruct (get_current_path _ _ _) as [[result current_path] w1].
  simpl in H1. case_decide.
  2:{ by apply healthy_clean_exit, send_msg_healthy, normal_body_error. }
  unfold inotify_init, inotify_add_watch.
  destruct (env_inotify_init E) as [e|].
  { rewrite decide_True by done.
    by apply healthy_clean_exit, send_msg_healthy, normal_body_error. }
  cbn [notify_fd set_notify_fd]. rewrite decide_False by lia.
  destruct (env_add_watch E (cstr current_path)) as [e|].
  { rewrite decide_True by done.
    by apply healthy_clean_exit, send_msg_healthy, normal_body_error. }
  rewrite decide_False by done.
  pose proof (get_chromium_theme_path_healthy (static_array STRING_MAX)
                current_path
                (set_notify_fd (Z.of_nat (env_notify_fd E)) w1)
                (healthy_set_notify_fd _ _ H1)) as H2.
  destruct (get_chromium_theme_path _ _ _) as [[result2 theme_path] w5].
  simpl in H2. case_decide.
  2:{ by apply healthy_clean_exit, send_msg_healthy, normal_body_error. }
  unfold mbind, M_bind.
  pose proof (reread_healthy E (cstr theme_path)
                (static_array CHROMIUM_THEME_MAX) w5 theme_ok_static H2) as H3.
  destruct (reread _ _ _ _) as [theme w6|st w6]; [|done].
  destruct H3. by apply steady_healthy.
Qed.
End WholeRun.

(** C1 as stated fails: with the theme line [12,34] the program sends,
    as its first message, a body whose [rgb] is an array of two numbers. *)
Lemma main_sends_two_numbers :
  let o := main (Demo.E (Content (lit "12,34" ++ [x0a]))) [] in
  exit_status o = None
  ∧ read_frame (w_stdout (final_world o)) = Some (fmt_rgb (lit "12,34"), [])
  ∧ protocol_message (fmt_rgb (lit "12,34")) = false.
Proof. vm_compute. done. Qed.

(** C1, as the program has it.  In every run in which the writes to
    standard output succeed, standard output is a sequence of frames
    whose bodies each are, byte for byte, either the colour body
    [{"rgb":[S],"error":null}], with [S] a string of at most 11 digits
    and commas, or the error body [{"rgb":null,"error":"T"}], with [T]
    the body of a JSON string.  An error body always is a message of
    the protocol: an object with the two fields, [rgb] null and [error]
    a string.  A colour body is one, with [rgb] an array of three
    numbers and [error] null, exactly when [S] is three JSON numbers
    separated by commas, which the program does not check. *)
Theorem main_messages_normal (E : env) (inputs : list input) :
  writes_succeed (env_writes E) →
  ∃ bodies,
    w_stdout (final_world (main E inputs)) = concat (map frame bodies)
    ∧ Forall normal_message bodies.
Proof.
  intros Hws. pose proof (main_healthy E inputs Hws) as Hrun.
  assert (Hout : stream_ok (w_stdout (final_world (main E inputs)))).
  { destruct (main E inputs) as [[] w|st w]; simpl in *.
    - by destruct Hrun as (_ & _ & _ & Hout).
    - by destruct Hrun as (_ & _ & Hout). }
  destruct Hout as (bodies & Hout & Hbodies).
  exists bodies. split; [done|].
  eapply Forall_impl; [exact Hbodies|]. apply normal_body_message.
Qed.

Lemma main_messages_normal_witness :
  ∃ bodies,
    w_stdout
      (final_world
         (main (Demo.E (Content (lit "23,43,67" ++ [x0a])))
            [FsChange (Demo.fs (OpenFails Demo.ENOENT));
             ReadBytes (Demo.record IN_MOVED_TO (lit "theme") 11)]))
    = concat (map frame bodies)
    ∧ Forall normal_message bodies.
Proof.
  refine (main_messages_normal (Demo.E (Content (lit "23,43,67" ++ [x0a])))
    [FsChange (Demo.fs (OpenFails Demo.ENOENT));
     ReadBytes (Demo.record IN_MOVED_TO (lit "theme") 11)] _).
  apply Forall_nil. reflexivity.
Defined.

(** The bodies of the two kinds, on the run of the witness. *)
Example main_messages_example :
  let o := main (Demo.E (Content (lit "23,43,67" ++ [x0a])))
             [FsChange (Demo.fs (OpenFails Demo.ENOENT));
              ReadBytes (Demo.record IN_MOVED_TO (lit "theme") 11)] in
  exit_status o = Some 2%Z
  ∧ w_stdout (final_world o)
    = frame (fmt_rgb (lit "23,43,67"))
      ++ frame (fmt_error (lit "could not read chromium.theme to string")
                  (lit "No such file or directory"))
  ∧ protocol_message (fmt_rgb (lit "23,43,67")) = true
  ∧ protocol_message
      (fmt_error (lit "could not read chromium.theme to string")
         (lit "No such file or directory")) = true.
Proof. vm_compute. done. Qed.

(** Strings of digits and commas that the reader lets through, and
    whether they are three numbers. *)
Example number_triple_examples :
  number_triple (lit "23,43,67") = true
  ∧ number_triple (lit "0,0,0") = true
  ∧ number_triple (lit "12,34") = false
  ∧ number_triple (lit ",,") = false
  ∧ number_triple (lit "012,034,056") = false
  ∧ number_triple (lit "12345678901") = false
  ∧ number_triple [] = false.
Proof. vm_compute. done. Qed.

Ltac known_context :=
  unfold fatal_contexts;
  repeat first [apply list_elem_of_here | apply list_elem_of_further].

Section ExitStatus.
Implicit Types (E : env) (w : world) (theme path buf : list byte).

(** When the writes succeed [send_msg] leaves [errno] alone. *)
Lemma send_msg_quiet E rgb err en w :
  healthy w →
  w_errno (send_msg E rgb err en w) = w_errno w
  ∧ (length (body_of E rgb err en) < MSG_MAX →
     w_stdout (send_msg E rgb err en w)
     = w_stdout w ++ frame (body_of E rgb err en)).
Proof.
  intros (Hbuf & Hws & _).
  destruct (send_msg_succeeds E rgb err en w Hbuf Hws) as (_ & _ & Herr & Hout).
  split; [done|]. intros Hfits. by rewrite Hout, decide_True.
Qed.

(** Exiting with the number the message was made for. *)
Lemma fatal_result_reported {A} E context result w :
  context ∈ fatal_contexts → healthy w → result ≠ 0%Z →
  exit_reported E
    (clean_exit (A:=A) result (send_msg E None (Some context) result w)).
Proof.
  intros Hctx (Hbuf & Hws & Hout) Hr.
  destruct (send_msg_succeeds E None (Some context) result w Hbuf Hws)
    as (_ & _ & _ & Hsent).
  unfold exit_reported, clean_exit.
  destruct (0 <=? notify_fd _)%Z;
    (split; [done|]); exists context, (w_stdout w);
    (split; [done|]); (split; [done|]); exact Hsent.
Qed.

(** Exiting with [errno] read again after the message was sent. *)
Lemma fatal_errno_reported {A} E context w :
  context ∈ fatal_contexts → healthy w → w_errno w ≠ 0%Z →
  exit_reported E
    (clean_exit (A:=A)
       (w_errno (send_msg E None (Some context) (w_errno w) w))
       (send_msg E None (Some context) (w_errno w) w)).
Proof.
  intros Hctx Hw Hr.
  destruct (send_msg_quiet E None (Some context) (w_errno w) w Hw) as [-> _].
  by apply fatal_result_reported.
Qed.

Lemma reread_reported E path theme w :
  healthy w → exit_reported E (reread E path theme w).
Proof.
  intros Hw. unfold reread.
  destruct (get_chromium_theme E theme path w) as [[r theme'] w1] eqn:Hread.
  case_decide; [done|]. apply fatal_result_reported; [known_context| |done].
  destruct (w_fopen w path) as [e|e|s] eqn:Hopen.
  - rewrite (get_chromium_theme_open_fails _ _ _ _ _ Hopen) in Hread.
    by simplify_eq.
  - rewrite (get_chromium_theme_read_fails _ _ _ _ _ Hopen) in Hread.
    by simplify_eq.
  - unfold get_chromium_theme in Hread. rewrite Hopen in Hread.
    destruct s; [by simplify_eq|].
    destruct (filter_loop _ _ _) in Hread. by simplify_eq.
Qed.

Lemma events_reported E path buf n off theme w :
  theme_ok theme → healthy w →
  exit_reported E (events E path buf n off theme w).
Proof.
  funelim (events E path buf n off theme w); intros Htheme Hw; try done.
  - match goal with
    | Heq : (if qualifies _ _ then _ else _) = Running _ _ |- _ =>
        rename Heq into Hstep
    end.
    match goal with
    | IH : theme_ok _ → healthy _ → _ |- _ => apply IH
    end.
    all: destruct (qualifies buf off);
      [ pose proof (reread_healthy E path chromium_theme w Htheme Hw) as Hr;
        rewrite Hstep in Hr; apply Hr
      | by simplify_eq ].
  - match goal with
    | Heq : (if qualifies _ _ then _ else _) = Exited _ _ |- _ =>
        rename Heq into Hstep
    end.
    destruct (qualifies buf off); [|done].
    pose proof (reread_reported E path chromium_theme w Hw) as Hr.
    by rewrite Hstep in Hr.
Qed.

Lemma steady_reported E path inputs buf theme w :
  theme_ok theme → healthy w →
  exit_reported E (steady E path inputs buf theme w).
Proof.
  revert buf theme w.
  induction inputs as [|[fs|e|bytes] inputs IH]; intros buf theme w Htheme Hw.
  - done.
  - by apply IH.
  - cbn [steady]. cbv zeta. case_decide; [by apply IH|].
    by apply (fatal_errno_reported E _ (set_errno (Z.pos e) w)); [known_context|..].
  - cbn [steady]. cbv zeta.
    destruct (length (take INOTIFY_BUF_LEN bytes) =? 0); [by apply IH|].
    unfold mbind, M_bind.
    pose proof (events_healthy E path
      (take INOTIFY_BUF_LEN bytes
         ++ drop (length (take INOTIFY_BUF_LEN bytes)) buf)
      (length (take INOTIFY_BUF_LEN bytes)) 0 theme w Htheme Hw) as Hev.
    pose proof (events_reported E path
      (take INOTIFY_BUF_LEN bytes
         ++ drop (length (take INOTIFY_BUF_LEN bytes)) buf)
      (length (take INOTIFY_BUF_LEN bytes)) 0 theme w Htheme Hw) as Hrep.
    destruct (events _ _ _ _ _ _ _) as [theme' w'|st w']; [|done].
    destruct Hev. by apply IH.
Qed.

(** As long as every write and flush of standard output succeeds,
    every exit of the program has a nonzero error number as its status
    and follows the error message made for that number. *)
Lemma main_exit_reported E inputs :
  writes_succeed (env_writes E) → exit_reported E (main E inputs).
Proof.
  intros Hws. unfold main. cbv zeta.
  pose proof (get_current_path_healthy E (static_array STRING_MAX)
                (init_world E) (healthy_init_world E Hws)) as H1.
  destruct (get_current_path _ _ _) as [[result current_path] w1].
  simpl in H1. case_decide.
  2:{ by apply fatal_result_reported; [known_context|..]. }
  unfold inotify_init, inotify_add_watch.
  destruct (env_inotify_init E) as [e|].
  { rewrite decide_True by done.
    by apply (fatal_errno_reported E _
                (set_notify_fd (-1) (set_errno (Z.pos e) w1)));
      [known_context|..]. }
  cbn [notify_fd set_notify_fd]. rewrite decide_False by lia.
  destruct (env_add_watch E (cstr current_path)) as [e|].
  { rewrite decide_True by done.
    by apply (fatal_errno_reported E _
                (set_errno (Z.pos e)
                   (set_notify_fd (Z.of_nat (env_notify_fd E)) w1)));
      [known_context|..]. }
  rewrite decide_False by done.
  pose proof (get_chromium_theme_path_healthy (static_array STRING_MAX)
                current_path
                (set_notify_fd (Z.of_nat (env_notify_fd E)) w1)
                (healthy_set_notify_fd _ _ H1)) as H2.
  destruct (get_chromium_theme_path _ _ _) as [[result2 theme_path] w5].
  simpl in H2. case_decide.
  2:{ by apply fatal_result_reported; [known_context|..]. }
  unfold mbind, M_bind.
  pose proof (reread_healthy E (cstr theme_path)
                (static_array CHROMIUM_THEME_MAX) w5 theme_ok_static H2) as H3.
  pose proof (reread_reported E (cstr theme_path)
                (static_array CHROMIUM_THEME_MAX) w5 H2) as H4.
  destruct (reread _ _ _ _) as [theme w6|st w6]; [|done].
  destruct H3. by apply steady_reported.
Qed.
End ExitStatus.

(** ** Exit status *)

(** The paths of [main] that keep the error number in [result] exit
    with it, whatever happens to the message. *)
Lemma reread_exit_status E path theme w st w' :
  reread E path theme w = Exited st w' →
  st = (get_chromium_theme E theme path w).1.1 ∧ st ≠ 0%Z.
Proof.
  unfold reread, clean_exit.
  destruct (get_chromium_theme E theme path w) as [[r theme'] w1].
  case_decide as Hr; [done|]. intros Heq.
  assert (Hst : Some r = Some st) by exact (f_equal exit_status Heq).
  clear Heq. injection Hst as <-. by split.
Qed.

(** C9 does not hold of the program: where [main] passes [errno] to
    [send_msg] and reads [errno] again for [clean_exit], a failed write
    of the message changes the exit status.  Here [inotify_init] fails
    with EMFILE (24) and the write to standard output with EBADF (9):
    nothing reaches standard output and the process exits with 9. *)
Theorem main_exit_status_follows_failed_write :
  let o := main Demo.E_no_inotify [] in
  env_inotify_init Demo.E_no_inotify = Some 24%positive
  ∧ exit_status o = Some 9%Z
  ∧ w_stdout (final_world o) = []
  ∧ w_stderr (final_world o)
    = [lit "could not send message: Bad file descriptor"].
Proof. vm_compute. done. Qed.

(** With the theme file empty at startup the program reports a colour:
    the reader's success on a file it read nothing from (C7) is sent as
    an empty array, and the process goes on. *)
Example main_empty_theme_file :
  let o := main (Demo.E (Content [])) [] in
  exit_status o = None
  ∧ read_frame (w_stdout (final_world o)) = Some (fmt_rgb [], [])
  ∧ w_stderr (final_world o) = [].
Proof. vm_compute. done. Qed.

(** A batch holding a record for [theme] and then an overrunning one:
    the first is acted on, the second ends the batch, and the program
    keeps running. *)
Example main_batch_with_overrun :
  let o := main (Demo.E (Content (lit "1,2,3")))
             [FsChange (Demo.fs (Content (lit "4,5,6")));
              ReadBytes (Demo.record IN_MOVED_TO (lit "theme") 11
                           ++ Demo.overrunning)] in
  exit_status o = None
  ∧ w_stdout (final_world o)
    = frame (fmt_rgb (lit "1,2,3")) ++ frame (fmt_rgb (lit "4,5,6")).
Proof. vm_compute. done. Qed.

(** The same with standard output buffered, as it is when it is not a
    terminal: the two writes go into the buffer, the flush fails with
    EBADF, silently, and the process exits with 9 again. *)
Example main_exit_status_follows_failed_flush :
  let o := main Demo.E_no_inotify_no_flush [] in
  exit_status o = Some 9%Z
  ∧ w_stdout (final_world o)
    = frame (fmt_error (lit "could not init inotify")
               (lit "Too many open files"))
  ∧ w_stderr (final_world o) = [].
Proof. vm_compute. done. Qed.

(** * Further properties of the code *)

(** ** [json_escape]: bounds *)

Lemma drop_poke (dst bs : list byte) (di n : nat) :
  di + length bs ≤ n → drop n (poke dst di bs) = drop n dst.
Proof.
  revert dst di. induction bs as [|b bs IH]; intros dst di Hn; simpl in *; [done|].
  rewrite IH by lia. apply drop_insert_lt. lia.
Qed.

Lemma json_escape_loop_drop (src dst : list byte) (di n : nat) :
  drop n (json_escape_loop src di dst n).2 = drop n dst.
Proof.
  revert di dst. induction src as [|c src IH]; intros di dst; simpl; [done|].
  destruct (Nat.leb_spec n (di + 6)); [done|].
  rewrite IH. apply drop_poke. pose proof (escape_byte_length c). lia.
Qed.

Lemma json_escape_drop (src dst : list byte) (n : nat) :
  drop n (json_escape src dst n).2 = drop n dst.
Proof.
  unfold json_escape. destruct (n =? 0); [done|].
  pose proof (json_escape_loop_drop src dst 0 n) as Hloop.
  destruct (json_escape_loop src 0 dst n) as [[di|] dst']; simpl in *; [|done].
  destruct (Nat.leb_spec n di); simpl; [done|].
  by rewrite drop_insert_lt.
Qed.

(** X1. Whatever the input and whether it succeeds or fails,
    [json_escape] stores only into the first [dst_size] bytes of the
    destination: the memory that follows them is left as it was. *)
Theorem json_escape_stays_in_bounds (src dst after : list byte) :
  ∃ dst',
    (json_escape src (dst ++ after) (length dst)).2 = dst' ++ after
    ∧ length dst' = length dst.
Proof.
  pose proof (json_escape_drop src (dst ++ after) (length dst)) as Hdrop.
  pose proof (length_json_escape src (dst ++ after) (length dst)) as Hlen.
  rewrite drop_app_length in Hdrop. rewrite length_app in Hlen.
  exists (take (length dst) (json_escape src (dst ++ after) (length dst)).2).
  split.
  - rewrite <- Hdrop at 3. by rewrite take_drop.
  - rewrite length_take. lia.
Qed.

(** X2. When [json_escape] succeeds, the length it returns is at least
    the input length, at most six times the input length, and below the
    capacity, so that the terminator fits as well. *)
Theorem json_escape_length_bounds (src dst : list byte) (n : nat) (r : Z)
    (dst' : list byte) :
  json_escape src dst n = (r, dst') → r ≠ (-1)%Z →
  (Z.of_nat (length src) ≤ r ≤ 6 * Z.of_nat (length src))%Z
  ∧ (r < Z.of_nat n)%Z.
Proof.
  intros Hrun Hr.
  destruct (json_escape_result _ _ _ _ _ Hrun Hr) as (Hcap & -> & _).
  pose proof (escape_all_length src).
  pose proof (needed_capacity_length src). lia.
Qed.

Lemma json_escape_length_bounds_witness :
  (Z.of_nat (length (lit "a" ++ [x0a])) ≤ 3
   ≤ 6 * Z.of_nat (length (lit "a" ++ [x0a])))%Z
  ∧ (3 < Z.of_nat 16)%Z.
Proof.
  refine (json_escape_length_bounds (lit "a" ++ [x0a]) (static_array 16) 16 3
            (lit "a\n" ++ static_array 13) _ _).
  - reflexivity.
  - discriminate.
Defined.

(** X3. A larger capacity never turns a success of [json_escape] into a
    failure, and neither the capacity nor what the destination held
    before changes the length returned. *)
Theorem json_escape_capacity_monotone (src dst dst2 : list byte) (n n' : nat) :
  (json_escape src dst n).1 ≠ (-1)%Z → n ≤ n' →
  (json_escape src dst2 n').1 = (json_escape src dst n).1.
Proof.
  intros Hok Hn.
  destruct (Nat.le_gt_cases (needed_capacity src) n) as [Hcap|Hcap].
  - rewrite !json_escape_fits by lia. done.
  - by apply (json_escape_too_long src dst) in Hcap.
Qed.

Lemma json_escape_capacity_monotone_witness :
  (json_escape (lit "ab") (static_array 20) 20).1
  = (json_escape (lit "ab") (static_array 9) 9).1.
Proof.
  refine (json_escape_capacity_monotone (lit "ab") (static_array 9)
            (static_array 20) 9 20 _ _).
  - vm_compute. discriminate.
  - lia.
Defined.

(** ** [snprintf_werr] *)

(** X4. For a buffer of [maxlen > 0] bytes and a text without NUL,
    [snprintf_werr] returns 0 exactly when the text and its terminator
    fit and ERANGE exactly when they do not; in both cases the buffer
    keeps its size and ends up holding the first [maxlen - 1] bytes of
    the text as a C string (all of it when it fits). *)
Theorem snprintf_werr_truncates (s : list byte) (text : list byte) :
  0 < length s → NUL ∉ text →
  let '(r, s') := snprintf_werr s (length s) text in
  length s' = length s
  ∧ cstr s' = take (length s - 1) text
  ∧ (r = 0%Z ↔ length text < length s)
  ∧ (r = ERANGE ↔ length s ≤ length text).
Proof.
  intros Hs Hnul. unfold snprintf_werr.
  rewrite (proj2 (Nat.eqb_neq _ _)) by lia.
  destruct (Nat.leb_spec (length s) (length text)) as [Hlong|Hfits].
  - split; [apply length_store|]. split.
    + apply cstr_store; [rewrite length_take; lia|].
      intros Hin. by apply Hnul, (subseteq_take (length s - 1)).
    + unfold ERANGE. split; split; (done || lia).
  - split; [apply length_store|]. split.
    + rewrite take_ge by lia. by apply cstr_store.
    + unfold ERANGE. split; split; (done || lia).
Qed.

Lemma snprintf_werr_truncates_witness :
  let '(r, s') := snprintf_werr (static_array 4) (length (static_array 4))
                    (lit "/home") in
  length s' = length (static_array 4)
  ∧ cstr s' = take (length (static_array 4) - 1) (lit "/home")
  ∧ (r = 0%Z ↔ length (lit "/home") < length (static_array 4))
  ∧ (r = ERANGE ↔ length (static_array 4) ≤ length (lit "/home")).
Proof.
  refine (snprintf_werr_truncates (static_array 4) (lit "/home") _ _).
  - vm_compute. lia.
  - by apply nul_free_check.
Defined.

(** ** [get_chromium_theme]: bounds and repeated reads *)

Lemma store_app (buf after text : list byte) :
  length text < length buf → store (buf ++ after) text = store buf text ++ after.
Proof.
  intros Hlen.
  rewrite !store_segment by (rewrite ?length_app; lia).
  rewrite drop_app_le by lia. by rewrite <- app_assoc.
Qed.

Lemma store_store (buf text : list byte) :
  length text < length buf → store (store buf text) text = store buf text.
Proof.
  intros Hlen.
  rewrite (store_segment (store buf text)) by (by rewrite length_store).
  rewrite (store_segment buf text Hlen).
  do 2 f_equal. rewrite cons_middle, app_assoc.
  apply drop_app_length'. rewrite length_app. simpl. lia.
Qed.

Lemma length_kept (s : list byte) :
  length (take 11 (filter (λ c, digit_or_comma c) s)) < CHROMIUM_THEME_MAX.
Proof. rewrite length_take. unfold CHROMIUM_THEME_MAX. lia. Qed.

(** The reader's destination after a call, in every case. *)
Lemma get_chromium_theme_buffer E theme path w :
  (get_chromium_theme E theme path w).1.2 = theme
  ∨ ∃ s, (get_chromium_theme E theme path w).1.2
         = store theme (take 11 (filter (λ c, digit_or_comma c) s)).
Proof.
  destruct (w_fopen w path) as [e|e|s] eqn:Hopen.
  - left. by rewrite (get_chromium_theme_open_fails _ _ _ _ _ Hopen).
  - left. by rewrite (get_chromium_theme_read_fails _ _ _ _ _ Hopen).
  - destruct (decide (s = [])) as [->|Hs].
    + left. unfold get_chromium_theme. by rewrite Hopen.
    + right. eexists.
      by rewrite (get_chromium_theme_content E theme path w s Hopen Hs).
Qed.

(** X5. Whatever the theme file holds, the reader stores only into the
    12 bytes of its destination: the memory that follows them is left as
    it was, however long or malformed the line is. *)
Theorem get_chromium_theme_stays_in_bounds
    (E : env) (theme after path : list byte) (w : world) :
  length theme = CHROMIUM_THEME_MAX →
  ∃ theme',
    (get_chromium_theme E (theme ++ after) path w).1.2 = theme' ++ after
    ∧ length theme' = CHROMIUM_THEME_MAX.
Proof.
  intros Hlen.
  destruct (get_chromium_theme_buffer E (theme ++ after) path w)
    as [->|[s ->]].
  - by exists theme.
  - pose proof (length_kept s).
    exists (store theme (take 11 (filter (λ c, digit_or_comma c) s))).
    split; [apply store_app; lia | by rewrite length_store].
Qed.

Lemma get_chromium_theme_stays_in_bounds_witness :
  ∃ theme',
    (get_chromium_theme
       (Demo.E (Content (lit "1234567890123456789")))
       (static_array CHROMIUM_THEME_MAX ++ lit "after") Demo.theme_path
       (init_world (Demo.E (Content (lit "1234567890123456789"))))).1.2
    = theme' ++ lit "after"
    ∧ length theme' = CHROMIUM_THEME_MAX.
Proof.
  refine (get_chromium_theme_stays_in_bounds
    (Demo.E (Content (lit "1234567890123456789")))
    (static_array CHROMIUM_THEME_MAX) (lit "after") Demo.theme_path
    (init_world (Demo.E (Content (lit "1234567890123456789")))) _).
  reflexivity.
Defined.

(** X6. Reading an unchanged theme file again changes nothing: after a
    call that returned 0, a second call on the resulting destination and
    world returns 0 with the same destination and the same world. *)
Theorem get_chromium_theme_idempotent
    (E : env) (theme path : list byte) (w : world)
    (theme' : list byte) (w' : world) :
  length theme = CHROMIUM_THEME_MAX →
  get_chromium_theme E theme path w = (0%Z, theme', w') →
  get_chromium_theme E theme' path w' = (0%Z, theme', w').
Proof.
  intros Hlen Hrun.
  destruct (w_fopen w path) as [e|e|s] eqn:Hopen.
  - rewrite (get_chromium_theme_open_fails _ _ _ _ _ Hopen) in Hrun.
    by simplify_eq.
  - rewrite (get_chromium_theme_read_fails _ _ _ _ _ Hopen) in Hrun.
    by simplify_eq.
  - destruct (decide (s = [])) as [->|Hs].
    + unfold get_chromium_theme in Hrun |- *. rewrite Hopen in Hrun.
      injection Hrun as Herr <- <-. by rewrite Hopen, Herr.
    + rewrite (get_chromium_theme_content E theme path w s Hopen Hs) in Hrun.
      injection Hrun as <- <-.
      rewrite (get_chromium_theme_content E _ path w s Hopen Hs).
      rewrite store_store; [done|].
      pose proof (length_kept (cstr (take 255 (first_line s)))). lia.
Qed.

Lemma get_chromium_theme_idempotent_witness :
  get_chromium_theme (Demo.E (Content (lit "23,43,67" ++ [x0a])))
    (lit "23,43,67" ++ static_array 4) Demo.theme_path
    (init_world (Demo.E (Content (lit "23,43,67" ++ [x0a]))))
  = (0%Z, lit "23,43,67" ++ static_array 4,
     init_world (Demo.E (Content (lit "23,43,67" ++ [x0a])))).
Proof.
  refine (get_chromium_theme_idempotent
    (Demo.E (Content (lit "23,43,67" ++ [x0a])))
    (static_array CHROMIUM_THEME_MAX) Demo.theme_path
    (init_world (Demo.E (Content (lit "23,43,67" ++ [x0a]))))
    (lit "23,43,67" ++ static_array 4)
    (init_world (Demo.E (Content (lit "23,43,67" ++ [x0a])))) _ _);
    reflexivity.
Defined.

Lemma filter_all (s : list byte) :
  Forall (λ c, digit_or_comma c) s → filter (λ c, digit_or_comma c) s = s.
Proof.
  induction 1 as [|c s Hc _ IH]; [done|].
  rewrite filter_cons_True by done. by rewrite IH.
Qed.

Lemma digit_or_comma_not c b :
  digit_or_comma c → digit_or_comma b = false → c ≠ b.
Proof. intros Hc Hb ->. by rewrite Hb in Hc. Qed.

Lemma first_line_kept (s rest : list byte) :
  Forall (λ c, digit_or_comma c) s →
  first_line (s ++ x0a :: rest) = s ++ [x0a].
Proof.
  induction 1 as [|c s Hc _ IH]; simpl; [done|].
  rewrite decide_False by (by apply (digit_or_comma_not c x0a)).
  by rewrite IH.
Qed.

Lemma kept_no_nul (s : list byte) :
  Forall (λ c, digit_or_comma c) s → NUL ∉ s ++ [x0a].
Proof.
  intros Hs. rewrite not_elem_of_app. split.
  - intros Hin. rewrite Forall_forall in Hs. by apply Hs in Hin.
  - by apply nul_free_check.
Qed.

Lemma kept_of_well_formed_line (s rest : list byte) :
  Forall (λ c, digit_or_comma c) s → length s ≤ 11 →
  take 11 (filter (λ c, digit_or_comma c)
             (cstr (take 255 (first_line (s ++ x0a :: rest))))) = s.
Proof.
  intros Hs Hlen.
  rewrite first_line_kept by done.
  rewrite (take_ge (s ++ [x0a])) by (rewrite length_app; simpl; lia).
  rewrite cstr_id by (by apply kept_no_nul).
  rewrite filter_app, filter_all by done.
  rewrite filter_cons_False by (by vm_compute).
  rewrite filter_nil, app_nil_r.
  by apply take_ge.
Qed.

(** X7. When the theme file starts with a line of at most 11 digits and
    commas ended by a newline (such as [r,g,b] with components up to
    255), the reader returns 0 and the destination holds exactly that
    line without its newline, whatever follows in the file. *)
Theorem get_chromium_theme_well_formed_line
    (E : env) (theme path : list byte) (w : world) (s rest : list byte) :
  w_fopen w path = Content (s ++ x0a :: rest) →
  Forall (λ c, digit_or_comma c) s → length s ≤ 11 →
  length theme = CHROMIUM_THEME_MAX →
  ∃ theme',
    get_chromium_theme E theme path w = (0%Z, theme', w) ∧ cstr theme' = s.
Proof.
  intros Hopen Hs Hlen Htheme. eexists. split.
  { apply get_chromium_theme_content; [done|]. by destruct s. }
  destruct (store_kept theme (cstr (take 255 (first_line (s ++ x0a :: rest))))
              Htheme) as [_ ->].
  by apply kept_of_well_formed_line.
Qed.

Lemma get_chromium_theme_well_formed_line_witness :
  ∃ theme',
    get_chromium_theme (Demo.E (Content (lit "255,255,255" ++ x0a :: lit "x")))
      (static_array CHROMIUM_THEME_MAX) Demo.theme_path
      (init_world (Demo.E (Content (lit "255,255,255" ++ x0a :: lit "x"))))
    = (0%Z, theme',
       init_world (Demo.E (Content (lit "255,255,255" ++ x0a :: lit "x"))))
    ∧ cstr theme' = lit "255,255,255".
Proof.
  refine (get_chromium_theme_well_formed_line
    (Demo.E (Content (lit "255,255,255" ++ x0a :: lit "x")))
    (static_array CHROMIUM_THEME_MAX) Demo.theme_path
    (init_world (Demo.E (Content (lit "255,255,255" ++ x0a :: lit "x"))))
    (lit "255,255,255") (lit "x") _ _ _ _).
  - reflexivity.
  - repeat (apply Forall_cons; split; [exact I|]). by apply Forall_nil.
  - vm_compute. lia.
  - reflexivity.
Defined.

(** ** [send_msg]: sizes and failed writes *)

Lemma needed_capacity_bounds (src : list byte) :
  length src + 6 ≤ needed_capacity src ≤ 6 * length src + 1
  ∨ src = [].
Proof.
  destruct src as [|c src _] using rev_ind; [by right|left].
  rewrite needed_capacity_snoc, length_app. simpl.
  pose proof (escape_all_length src). lia.
Qed.

(** X8. The text put into an error message is always a JSON string
    body: the escaping of the given text when that text has at most 85
    bytes (6 bytes each and the terminator fit the 512-byte scratch
    array), and the literal [error too long] when it has 512 bytes or
    more; the scratch array keeps its size. *)
Theorem escape_into_fallback (text scratch : list byte) :
  length scratch = MSG_MAX →
  length (escape_into text scratch) = MSG_MAX
  ∧ json_string_body (cstr (escape_into text scratch)) = true
  ∧ (6 * strlen text < MSG_MAX →
     cstr (escape_into text scratch) = escape_all (cstr text))
  ∧ (MSG_MAX ≤ strlen text →
     cstr (escape_into text scratch) = lit "error too long").
Proof.
  intros Hlen. destruct (escape_into_spec text scratch Hlen) as [Hl ->].
  split; [done|]. split.
  { rewrite <- (app_nil_r (escaped text)). by rewrite json_string_body_escaped. }
  unfold escaped, strlen, MSG_MAX.
  destruct (needed_capacity_bounds (cstr text)) as [Hb|Hb].
  - split; intros Hsize; [rewrite decide_True by lia | rewrite decide_False by lia];
      done.
  - rewrite Hb. simpl. split; [done|]. lia.
Qed.

Lemma escape_into_fallback_witness :
  length (escape_into (replicate 600 x61) (static_array MSG_MAX)) = MSG_MAX
  ∧ json_string_body
      (cstr (escape_into (replicate 600 x61) (static_array MSG_MAX))) = true
  ∧ (6 * strlen (replicate 600 x61) < MSG_MAX →
     cstr (escape_into (replicate 600 x61) (static_array MSG_MAX))
     = escape_all (cstr (replicate 600 x61)))
  ∧ (MSG_MAX ≤ strlen (replicate 600 x61) →
     cstr (escape_into (replicate 600 x61) (static_array MSG_MAX))
     = lit "error too long").
Proof.
  refine (escape_into_fallback (replicate 600 x61) (static_array MSG_MAX) _).
  reflexivity.
Defined.

Lemma length_fmt_rgb (s : list byte) : length (fmt_rgb s) = 23 + length s.
Proof. unfold fmt_rgb, key. rewrite !length_app. simpl. lia. Qed.

Lemma send_msg_colour E theme w :
  buffers_ok w → length theme = CHROMIUM_THEME_MAX →
  Forall (λ o, o = None) (take 2 (w_writes w)) →
  w_stdout (send_msg E (Some theme) None 0 w)
  = w_stdout w ++ frame (fmt_rgb (cstr theme))
  ∧ w_stderr (send_msg E (Some theme) None 0 w) = w_stderr w.
Proof.
  intros Hbuf Hlen Hws.
  destruct (send_msg_cases E (Some theme) None 0 w Hbuf)
    as (_ & _ & _ & _ & Hcases).
  cbv zeta in Hcases. cbn [body_of] in Hcases.
  pose proof (cstr_length theme) as Hstr.
  rewrite decide_True in Hcases
    by (rewrite length_fmt_rgb; unfold MSG_MAX, CHROMIUM_THEME_MAX in *; lia).
  destruct (w_writes w) as [|[e|] [|[e'|] ws]];
    try (by destruct Hcases as (-> & _ & _ & ->)).
  all: exfalso; simpl in Hws;
    repeat (apply Forall_cons in Hws as [? Hws]); done.
Qed.

(** X9. A colour message is never too long for the message buffer: for
    a 12-byte colour array and the next two writes succeeding,
    [send_msg] appends exactly one frame, of 27 bytes plus the length of
    the colour string, to standard output and reports nothing. *)
Theorem send_msg_colour_is_sent (E : env) (theme : list byte) (w : world) :
  buffers_ok w → length theme = CHROMIUM_THEME_MAX →
  Forall (λ o, o = None) (take 2 (w_writes w)) →
  w_stdout (send_msg E (Some theme) None 0 w)
  = w_stdout w ++ frame (fmt_rgb (cstr theme))
  ∧ length (frame (fmt_rgb (cstr theme))) = 27 + strlen theme
  ∧ w_stderr (send_msg E (Some theme) None 0 w) = w_stderr w.
Proof.
  intros Hbuf Hlen Hws.
  destruct (send_msg_colour E theme w Hbuf Hlen Hws) as [Hout Herr].
  split; [done|]. split; [|done].
  unfold frame, strlen. rewrite length_app, length_htole32, length_fmt_rgb. lia.
Qed.

Lemma send_msg_colour_is_sent_witness :
  w_stdout (send_msg (Demo.E (Content [])) (Some (lit "1,2,3" ++ static_array 7))
              None 0 (init_world (Demo.E (Content []))))
  = w_stdout (init_world (Demo.E (Content [])))
    ++ frame (fmt_rgb (cstr (lit "1,2,3" ++ static_array 7)))
  ∧ length (frame (fmt_rgb (cstr (lit "1,2,3" ++ static_array 7))))
    = 27 + strlen (lit "1,2,3" ++ static_array 7)
  ∧ w_stderr (send_msg (Demo.E (Content []))
                (Some (lit "1,2,3" ++ static_array 7)) None 0
                (init_world (Demo.E (Content []))))
    = w_stderr (init_world (Demo.E (Content []))).
Proof.
  refine (send_msg_colour_is_sent (Demo.E (Content []))
            (lit "1,2,3" ++ static_array 7)
            (init_world (Demo.E (Content []))) _ _ _).
  - repeat split; reflexivity.
  - reflexivity.
  - by apply Forall_nil.
Defined.

(** X10. A message whose JSON body would take 512 bytes or more is not
    sent at all: standard output, [errno] and the pending writes are
    untouched, and one line naming ERANGE goes to the diagnostic
    stream. *)
Theorem send_msg_oversize_is_dropped
    (E : env) (rgb err : option (list byte)) (en : Z) (w : world) :
  buffers_ok w → MSG_MAX ≤ length (body_of E rgb err en) →
  w_stdout (send_msg E rgb err en w) = w_stdout w
  ∧ w_writes (send_msg E rgb err en w) = w_writes w
  ∧ w_errno (send_msg E rgb err en w) = w_errno w
  ∧ w_stderr (send_msg E rgb err en w)
    = w_stderr w ++ [could_not_send E ERANGE].
Proof.
  intros Hbuf Hlong.
  destruct (send_msg_cases E rgb err en w Hbuf) as (_ & _ & _ & _ & Hcases).
  cbv zeta in Hcases. by rewrite decide_False in Hcases by lia.
Qed.

Lemma send_msg_oversize_is_dropped_witness :
  w_stdout (send_msg (Demo.E (Content [])) None (Some (replicate 480 x61)) 2
              (init_world (Demo.E (Content [])))) = []
  ∧ w_writes (send_msg (Demo.E (Content [])) None (Some (replicate 480 x61)) 2
                (init_world (Demo.E (Content [])))) = []
  ∧ w_errno (send_msg (Demo.E (Content [])) None (Some (replicate 480 x61)) 2
               (init_world (Demo.E (Content [])))) = 0%Z
  ∧ w_stderr (send_msg (Demo.E (Content [])) None (Some (replicate 480 x61)) 2
                (init_world (Demo.E (Content []))))
    = [] ++ [could_not_send (Demo.E (Content [])) ERANGE].
Proof.
  refine (send_msg_oversize_is_dropped (Demo.E (Content [])) None
            (Some (replicate 480 x61)) 2 (init_world (Demo.E (Content []))) _ _).
  - repeat split; reflexivity.
  - vm_compute. lia.
Defined.

(** X11. When a write fails, [send_msg] does not retry.  If one of the
    two [fwrite]s comes back short it stops there and reports that
    error on the diagnostic stream, leaving it in [errno], and what has
    been handed to standard output is an incomplete frame: fewer than
    the four length bytes if the first write failed, the length bytes
    and fewer than all the bytes of the body if the second failed.  If
    only the final [fflush] fails, the whole frame has been handed over,
    nothing is reported and [errno] holds the error of the flush. *)
Theorem send_msg_failed_write
    (E : env) (rgb err : option (list byte)) (en : Z) (w : world)
    (e : positive) (k : nat) (ws : list (option (positive * nat))) :
  buffers_ok w → length (body_of E rgb err en) < MSG_MAX →
  (w_writes w = Some (e, k) :: ws →
   (∃ j, j < 4
         ∧ w_stdout (send_msg E rgb err en w)
           = w_stdout w
             ++ take j (htole32 (uint32 (length (body_of E rgb err en)))))
   ∧ w_errno (send_msg E rgb err en w) = Zpos e
   ∧ w_stderr (send_msg E rgb err en w)
     = w_stderr w ++ [could_not_send E (Zpos e)])
  ∧ (w_writes w = None :: Some (e, k) :: ws →
     (∃ j, j < length (body_of E rgb err en)
           ∧ w_stdout (send_msg E rgb err en w)
             = w_stdout w
               ++ htole32 (uint32 (length (body_of E rgb err en)))
               ++ take j (body_of E rgb err en))
     ∧ w_errno (send_msg E rgb err en w) = Zpos e
     ∧ w_stderr (send_msg E rgb err en w)
       = w_stderr w ++ [could_not_send E (Zpos e)])
  ∧ (w_writes w = None :: None :: Some (e, k) :: ws →
     w_stdout (send_msg E rgb err en w)
     = w_stdout w ++ frame (body_of E rgb err en)
     ∧ w_errno (send_msg E rgb err en w) = Zpos e
     ∧ w_stderr (send_msg E rgb err en w) = w_stderr w).
Proof.
  intros Hbuf Hfits.
  destruct (send_msg_cases E rgb err en w Hbuf) as (_ & _ & _ & _ & Hcases).
  cbv zeta in Hcases. rewrite decide_True in Hcases by done.
  assert (Hbody : 0 < length (body_of E rgb err en)).
  { unfold body_of, fmt_rgb_error, fmt_rgb, fmt_error, fmt_null.
    destruct rgb, err; rewrite length_app; simpl; lia. }
  split; [|split]; intros Hws; rewrite Hws in Hcases;
    destruct Hcases as (Hout & _ & Herrno & Hdiag).
  - split; [|done]. exists (min k 3). split; [lia|done].
  - split; [|done].
    exists (min k (length (body_of E rgb err en) - 1)). split; [lia|done].
  - done.
Qed.

Lemma send_msg_failed_write_witness :
  w_stdout (send_msg Demo.E_no_inotify (Some (lit "1,2,3")) None 0
              (init_world Demo.E_no_inotify)) = []
  ∧ w_errno (send_msg Demo.E_no_inotify (Some (lit "1,2,3")) None 0
               (init_world Demo.E_no_inotify)) = 9%Z.
Proof.
  destruct (send_msg_failed_write Demo.E_no_inotify (Some (lit "1,2,3")) None 0
              (init_world Demo.E_no_inotify) Demo.EBADF 0 []) as [Hfirst _].
  - repeat split; reflexivity.
  - vm_compute. lia.
  - destruct Hfirst as ((j & _ & Hout) & Herr & _); [reflexivity|].
    split; [|exact Herr].
    reflexivity.
Defined.

(** ** The event loop: what it ignores and what it acts on *)

Lemma record_offsets_step buf n off :
  off < n → ev_size buf off ≠ 0 → off + ev_size buf off ≤ n →
  record_offsets buf n off = off :: record_offsets buf n (off + ev_size buf off).
Proof.
  intros Hoff Hsize Hfits. simp record_offsets.
  destruct (decide (off < n)) as [?|?]; [|lia]. simpl.
  destruct (Nat.eqb_spec (ev_size buf off) 0); [lia|].
  destruct (Nat.ltb_spec n (off + ev_size buf off)); [lia|].
  simpl. f_equal. by simp record_offsets.
Qed.

Lemma record_offsets_end buf n off : n ≤ off → record_offsets buf n off = [].
Proof.
  intros Hoff. simp record_offsets.
  destruct (decide (off < n)) as [?|?]; [lia|]. reflexivity.
Qed.

(** A batch none of whose records qualifies leaves the colour and the
    world as they are. *)
Lemma events_no_match E path buf n off theme w :
  Forall (λ o, qualifies buf o = false) (record_offsets buf n off) →
  events E path buf n off theme w = Running theme w.
Proof.
  funelim (events E path buf n off theme w); intros Hnone; try done.
  all: match goal with
       | Heq : (if qualifies _ _ then _ else _) = _ |- _ =>
           rename Heq into Hstep
       end.
  all: match goal with
       | Heq : (_ =? 0) || (_ <? _) = false |- _ =>
           apply orb_false_elim in Heq; destruct Heq as [Hsize Hfits];
           apply Nat.eqb_neq in Hsize; apply Nat.ltb_ge in Hfits
       end.
  all: rewrite record_offsets_step in Hnone by done;
       apply Forall_cons in Hnone; destruct Hnone as [Hq Hnone];
       rewrite Hq in Hstep.
  - injection Hstep as <- <-. auto.
  - done.
Qed.

(** X12. A batch none of whose records is named [theme] has no effect:
    whatever the masks and lengths of its records, and whatever their
    names are otherwise (names that contain or end in [theme] included),
    the loop over it ends with the colour and the world unchanged, so
    nothing is read, sent or closed and the process does not exit.  The
    records of the batch are those the loop finds, each at the offset
    where the one before it ends. *)
Theorem events_ignores_other_names (E : env) (path buf : list byte) (n : nat)
    (chromium_theme : list byte) (w : world) :
  Forall (λ off, ev_name buf off ≠ THEME_DIR) (record_offsets buf n 0) →
  events E path buf n 0 chromium_theme w = Running chromium_theme w.
Proof.
  intros Hnames. apply events_no_match.
  eapply Forall_impl; [exact Hnames|]. intros off Hname. cbv beta.
  unfold qualifies. rewrite (bool_decide_eq_false_2 _ Hname).
  apply andb_false_r.
Qed.

Lemma events_ignores_other_names_witness :
  let E := Demo.E (Content (lit "1,2,3")) in
  let buf := Demo.record IN_MOVED_TO (lit "chromium.theme") 2
             ++ Demo.record IN_CREATE (lit "mytheme") 9 in
  events E Demo.theme_path buf 64 0 (static_array CHROMIUM_THEME_MAX)
    (init_world E)
  = Running (static_array CHROMIUM_THEME_MAX) (init_world E).
Proof.
  intros E buf.
  refine (events_ignores_other_names E Demo.theme_path buf 64
            (static_array CHROMIUM_THEME_MAX) (init_world E) _).
  assert (Hsize0 : ev_size buf 0 = 32) by (by vm_compute).
  assert (Hsize1 : ev_size buf 32 = 32) by (by vm_compute).
  rewrite (record_offsets_step buf 64 0) by (rewrite ?Hsize0; lia).
  rewrite Hsize0. change (0 + 32) with 32.
  rewrite (record_offsets_step buf 64 32) by (rewrite ?Hsize1; lia).
  rewrite Hsize1. change (32 + 32) with 64.
  rewrite record_offsets_end by lia.
  repeat (apply Forall_cons; split; [by vm_compute|]). by apply Forall_nil.
Defined.

(** The records of that batch, and the bytes, taken from the middle of
    the first name, that spell [theme] without being a record. *)
Example record_offsets_example :
  let buf := Demo.record IN_MOVED_TO (lit "chromium.theme") 2
             ++ Demo.record IN_CREATE (lit "mytheme") 9 in
  ev_name buf 0 = lit "chromium.theme" ∧ ev_name buf 32 = lit "mytheme"
  ∧ ev_name buf 9 = THEME_DIR.
Proof. vm_compute. done. Qed.

Lemma events_at_end E path buf n theme w :
  events E path buf n n theme w = Running theme w.
Proof.
  simp events. destruct (decide (n < n)) as [?|?]; [lia|]. reflexivity.
Qed.

(** X13. A batch that is exactly one record named [theme], of non-zero
    name length and with the moved-to or the create bit in its mask,
    makes the program read and report the theme exactly once: the loop
    over it does what one call of the read-and-report step does. *)
Theorem events_single_theme_record (E : env) (path buf : list byte) (n : nat)
    (chromium_theme : list byte) (w : world) :
  ev_size buf 0 = n → qualifies buf 0 = true →
  events E path buf n 0 chromium_theme w = reread E path chromium_theme w.
Proof.
  intros Hsize Hq.
  assert (Hn : 0 < n) by (unfold ev_size, EVENT_HEADER in Hsize; lia).
  simp events. destruct (decide (0 < n)) as [?|?]; [|lia]. simpl.
  rewrite Hsize, Nat.ltb_irrefl. simpl. rewrite Hq.
  destruct (reread E path chromium_theme w) as [theme' w'|st w'] eqn:Hr; simpl.
  - rewrite Hsize. apply events_at_end.
  - done.
Qed.

Lemma events_single_theme_record_witness :
  events (Demo.E (Content (lit "1,2,3"))) Demo.theme_path
    (Demo.record IN_CREATE (lit "theme") 11) 32 0
    (static_array CHROMIUM_THEME_MAX)
    (init_world (Demo.E (Content (lit "1,2,3"))))
  = reread (Demo.E (Content (lit "1,2,3"))) Demo.theme_path
      (static_array CHROMIUM_THEME_MAX)
      (init_world (Demo.E (Content (lit "1,2,3")))).
Proof.
  refine (events_single_theme_record (Demo.E (Content (lit "1,2,3")))
    Demo.theme_path (Demo.record IN_CREATE (lit "theme") 11) 32
    (static_array CHROMIUM_THEME_MAX)
    (init_world (Demo.E (Content (lit "1,2,3")))) _ _); reflexivity.
Defined.

(** ** The read loop *)

(** X14. While [read] is only interrupted by signals or returns no
    bytes, and whatever happens to the files meanwhile, the loop goes on
    waiting: the process does not exit, and nothing is written to
    standard output or the diagnostic stream and nothing is closed. *)
Theorem steady_keeps_waiting (E : env) (path : list byte)
    (inputs : list input) (buf chromium_theme : list byte) (w : world) :
  Forall idle inputs →
  ∃ w',
    steady E path inputs buf chromium_theme w = Running tt w'
    ∧ w_stdout w' = w_stdout w ∧ w_stderr w' = w_stderr w
    ∧ w_closed w' = w_closed w.
Proof.
  intros Hidle. revert buf w.
  induction Hidle as [|[fs|e|bytes] inputs Hi _ IH]; intros buf w.
  - by exists w.
  - destruct (IH buf (set_fopen fs w)) as (w' & Hrun & ? & ? & ?).
    by exists w'.
  - cbn [steady]. cbv zeta. simpl in Hi.
    rewrite decide_True by done.
    destruct (IH buf (set_errno (Z.pos e) w)) as (w' & Hrun & ? & ? & ?).
    by exists w'.
  - simpl in Hi. subst bytes. cbn [steady]. cbv zeta.
    change (length (take INOTIFY_BUF_LEN [])) with 0.
    change (0 =? 0) with true. cbv iota.
    apply IH.
Qed.

Lemma steady_keeps_waiting_witness :
  ∃ w',
    steady (Demo.E (Content (lit "1,2,3"))) Demo.theme_path
      [ReadError 4; ReadBytes []; FsChange (Demo.fs (Content []))]
      (static_array INOTIFY_BUF_LEN) (static_array CHROMIUM_THEME_MAX)
      (init_world (Demo.E (Content (lit "1,2,3"))))
    = Running tt w'
    ∧ w_stdout w' = w_stdout (init_world (Demo.E (Content (lit "1,2,3"))))
    ∧ w_stderr w' = w_stderr (init_world (Demo.E (Content (lit "1,2,3"))))
    ∧ w_closed w' = w_closed (init_world (Demo.E (Content (lit "1,2,3")))).
Proof.
  refine (steady_keeps_waiting (Demo.E (Content (lit "1,2,3"))) Demo.theme_path
    [ReadError 4; ReadBytes []; FsChange (Demo.fs (Content []))]
    (static_array INOTIFY_BUF_LEN) (static_array CHROMIUM_THEME_MAX)
    (init_world (Demo.E (Content (lit "1,2,3")))) _).
  repeat (apply Forall_cons; split; [reflexivity|]). by apply Forall_nil.
Defined.

(** ** The paths *)

Lemma snprintf_werr_fits (s text : list byte) (n : nat) :
  length text < n → snprintf_werr s n text = (0%Z, store s text).
Proof.
  intros Hn. unfold snprintf_werr.
  rewrite (proj2 (Nat.eqb_neq _ _)) by lia.
  by rewrite (proj2 (Nat.leb_gt _ _)) by lia.
Qed.

Lemma snprintf_werr_long (s text : list byte) (n : nat) :
  0 < n → n ≤ length text →
  snprintf_werr s n text = (ERANGE, store s (take (n - 1) text)).
Proof.
  intros Hn Hlong. unfold snprintf_werr.
  rewrite (proj2 (Nat.eqb_neq _ _)) by lia.
  by rewrite (proj2 (Nat.leb_le _ _)) by lia.
Qed.

Lemma cstr_app_no_nul (a b : list byte) : NUL ∉ b → NUL ∉ cstr a ++ b.
Proof.
  intros Hb. rewrite not_elem_of_app. split; [apply cstr_no_nul | done].
Qed.

(** The path made of the string in [home], once [get_home] has
    returned 0. *)
Lemma current_path_of_home E home current_path w :
  length current_path = STRING_MAX →
  let p := cstr home ++ lit "/.config/omarchy/current" in
  let '(r, path') := snprintf_werr current_path STRING_MAX p in
  let result :=
    if decide (r = 0%Z)
    then let '(d, w2) := dir_exists E (cstr path') w in (d, path', w2)
    else (r, path', w) in
  if decide (length p < STRING_MAX)
  then cstr result.1.2 = p
       ∧ result.1.1 = match env_opendir E p with
                      | None => 0%Z
                      | Some e => Zpos e
                      end
  else result.1.1 = ERANGE ∧ result.2 = w.
Proof.
  intros Hlen. cbv zeta.
  set (p := cstr home ++ lit "/.config/omarchy/current").
  assert (Hnul : NUL ∉ p) by (by apply cstr_app_no_nul, nul_free_check).
  case_decide as Hfits.
  - rewrite snprintf_werr_fits by done. rewrite decide_True by done.
    rewrite cstr_store by (by rewrite ?Hlen).
    unfold dir_exists.
    destruct (env_opendir E p); cbn [fst snd];
      by rewrite cstr_store by (by rewrite ?Hlen).
  - rewrite snprintf_werr_long by (unfold STRING_MAX in *; lia).
    by rewrite decide_False by done.
Qed.

(** X15. With [HOME] set, [get_current_path] builds the path from it:
    when [HOME] followed by [/.config/omarchy/current] and a terminator
    fit in 256 bytes, the path array holds exactly that string and the
    result is 0 if the directory opens and the error number of
    [opendir] if not; when they do not fit, the result is ERANGE and
    neither [errno] nor anything else of the world is touched (the
    passwd database is never consulted). *)
Theorem get_current_path_from_home
    (E : env) (current_path : list byte) (w : world) (h : list byte) :
  env_HOME E = Some h → length current_path = STRING_MAX →
  let p := cstr h ++ lit "/.config/omarchy/current" in
  let '(r, path', w') := get_current_path E current_path w in
  if decide (length p < STRING_MAX)
  then cstr path' = p
       ∧ r = match env_opendir E p with None => 0%Z | Some e => Zpos e end
  else r = ERANGE ∧ w' = w.
Proof.
  intros Hhome Hlen. cbv zeta. unfold get_current_path, get_home.
  rewrite Hhome.
  destruct (decide (length (cstr h) < STRING_MAX)) as [Hh|Hh].
  - rewrite snprintf_werr_fits by done. rewrite decide_True by done.
    pose proof (current_path_of_home E
      (store (auto_array E STRING_MAX) (cstr h)) current_path w Hlen) as Hp.
    cbv zeta in Hp.
    rewrite cstr_store in Hp |- *
      by first [ by rewrite length_auto_array | apply cstr_no_nul ].
    destruct (snprintf_werr current_path STRING_MAX _) as [r path'].
    destruct (decide (r = 0%Z));
      [destruct (dir_exists E (cstr path') w)|]; exact Hp.
  - rewrite snprintf_werr_long by (unfold STRING_MAX in *; lia).
    rewrite decide_False by done.
    rewrite decide_False by (rewrite length_app; lia). done.
Qed.

Lemma get_current_path_from_home_witness :
  let '(r, path', w') :=
    get_current_path (Demo.E (Content [])) (static_array STRING_MAX)
      (init_world (Demo.E (Content []))) in
  if decide (length (cstr Demo.home ++ lit "/.config/omarchy/current")
             < STRING_MAX)
  then cstr path' = cstr Demo.home ++ lit "/.config/omarchy/current"
       ∧ r = match env_opendir (Demo.E (Content []))
                     (cstr Demo.home ++ lit "/.config/omarchy/current") with
             | None => 0%Z
             | Some e => Zpos e
             end
  else r = ERANGE ∧ w' = init_world (Demo.E (Content [])).
Proof.
  refine (get_current_path_from_home (Demo.E (Content []))
            (static_array STRING_MAX) (init_world (Demo.E (Content [])))
            Demo.home _ _); reflexivity.
Defined.

(** X16. With [HOME] unset and no passwd entry for the user
    ([getpwuid] returns NULL without setting [errno]) while [errno] is
    0, [get_home] returns 0 without having written the home directory:
    [get_current_path] goes on and builds the path from whatever the
    uninitialised [home] array holds, and reports what [opendir] says of
    that path. *)
Theorem get_current_path_without_home
    (E : env) (current_path : list byte) (w : world) :
  env_HOME E = None → env_passwd E = PwNull None → w_errno w = 0%Z →
  length current_path = STRING_MAX →
  let p := cstr (auto_array E STRING_MAX) ++ lit "/.config/omarchy/current" in
  let '(r, path', w') := get_current_path E current_path w in
  if decide (length p < STRING_MAX)
  then cstr path' = p
       ∧ r = match env_opendir E p with None => 0%Z | Some e => Zpos e end
  else r = ERANGE ∧ w' = w.
Proof.
  intros Hhome Hpw Herrno Hlen. cbv zeta. unfold get_current_path, get_home.
  rewrite Hhome, Hpw, Herrno. rewrite decide_True by done.
  pose proof (current_path_of_home E (auto_array E STRING_MAX)
                current_path w Hlen) as Hp.
  cbv zeta in Hp.
  destruct (snprintf_werr current_path STRING_MAX _) as [r path'].
  destruct (decide (r = 0%Z));
    [destruct (dir_exists E (cstr path') w)|]; exact Hp.
Qed.

Lemma get_current_path_without_home_witness :
  let '(r, path', w') :=
    get_current_path Demo.E_no_home (static_array STRING_MAX)
      (init_world Demo.E_no_home) in
  if decide (length (cstr (auto_array Demo.E_no_home STRING_MAX)
                     ++ lit "/.config/omarchy/current") < STRING_MAX)
  then cstr path'
       = cstr (auto_array Demo.E_no_home STRING_MAX)
         ++ lit "/.config/omarchy/current"
       ∧ r = match env_opendir Demo.E_no_home
                     (cstr (auto_array Demo.E_no_home STRING_MAX)
                      ++ lit "/.config/omarchy/current") with
             | None => 0%Z
             | Some e => Zpos e
             end
  else r = ERANGE ∧ w' = init_world Demo.E_no_home.
Proof.
  refine (get_current_path_without_home Demo.E_no_home
            (static_array STRING_MAX) (init_world Demo.E_no_home) _ _ _ _);
    reflexivity.
Defined.

(** X17. [get_chromium_theme_path] appends [/theme/chromium.theme] to
    the current path: when the result and its terminator fit in 256
    bytes, the path array holds exactly that string and the result is 0
    unless the file cannot be opened, in which case it is the error
    number of [fopen]; when they do not fit, the result is ERANGE and
    the world is untouched. *)
Theorem get_chromium_theme_path_appends
    (chromium_theme_path current_path : list byte) (w : world) :
  length chromium_theme_path = STRING_MAX →
  let p := cstr current_path ++ lit "/theme/chromium.theme" in
  let '(r, path', w') :=
    get_chromium_theme_path chromium_theme_path current_path w in
  if decide (length p < STRING_MAX)
  then cstr path' = p
       ∧ r = match w_fopen w p with OpenFails e => Zpos e | _ => 0%Z end
  else r = ERANGE ∧ w' = w.
Proof.
  intros Hlen. cbv zeta. unfold get_chromium_theme_path.
  set (p := cstr current_path ++ lit "/theme/chromium.theme").
  assert (Hnul : NUL ∉ p) by (by apply cstr_app_no_nul, nul_free_check).
  case_decide as Hfits.
  - rewrite snprintf_werr_fits by done. rewrite decide_True by done.
    rewrite cstr_store by (by rewrite ?Hlen).
    unfold file_exists.
    destruct (w_fopen w p); cbn [fst snd];
      by rewrite cstr_store by (by rewrite ?Hlen).
  - rewrite snprintf_werr_long by (unfold STRING_MAX in *; lia).
    by rewrite decide_False by done.
Qed.

Lemma get_chromium_theme_path_appends_witness :
  let '(r, path', w') :=
    get_chromium_theme_path (static_array STRING_MAX) Demo.current
      (init_world (Demo.E (Content []))) in
  if decide (length (cstr Demo.current ++ lit "/theme/chromium.theme")
             < STRING_MAX)
  then cstr path' = cstr Demo.current ++ lit "/theme/chromium.theme"
       ∧ r = match w_fopen (init_world (Demo.E (Content [])))
                     (cstr Demo.current ++ lit "/theme/chromium.theme") with
             | OpenFails e => Zpos e
             | _ => 0%Z
             end
  else r = ERANGE ∧ w' = init_world (Demo.E (Content [])).
Proof.
  refine (get_chromium_theme_path_appends (static_array STRING_MAX)
            Demo.current (init_world (Demo.E (Content []))) _).
  reflexivity.
Defined.

(** ** Invariants of a whole run *)

Lemma theme_ok_get_chromium_theme E theme path w :
  theme_ok theme → theme_ok (get_chromium_theme E theme path w).1.2.
Proof.
  intros Htheme.
  destruct (get_chromium_theme_buffer E theme path w) as [->|[s ->]]; [done|].
  destruct Htheme as (Hlen & _).
  destruct (store_kept theme s Hlen) as [Hlen' Hstr].
  split; [done|]. rewrite Hstr. split.
  - apply Forall_take, Forall_filter_digit_or_comma.
  - rewrite length_take. lia.
Qed.

Section RunInvariant.
Context (E : env) (I : world → Prop).
Hypothesis I_errno : ∀ e w, I w → I (set_errno e w).
Hypothesis I_fopen : ∀ fs w, I w → I (set_fopen fs w).
Hypothesis I_rgb :
  ∀ theme w, theme_ok theme → I w → I (send_msg E (Some theme) None 0 w).
Hypothesis I_error :
  ∀ context en w, I w → I (send_msg E None (Some context) en w).

Lemma inv_get_chromium_theme theme path w :
  I w → I (get_chromium_theme E theme path w).2.
Proof.
  intros Hw. unfold get_chromium_theme.
  destruct (w_fopen w path) as [e|e|[|c s]]; simpl; auto.
  by destruct (filter_loop _ _ _).
Qed.

Lemma inv_get_current_path current_path w :
  I w → I (get_current_path E current_path w).2.
Proof.
  intros Hw. unfold get_current_path, get_home, dir_exists.
  destruct (env_HOME E) as [h|]; [|destruct (env_passwd E) as [d|[e|]]];
    repeat first [ done | by apply I_errno | case_decide
                 | destruct (snprintf_werr _ _ _) as [? ?]
                 | destruct (env_opendir E _) ].
Qed.

Lemma inv_get_chromium_theme_path chromium_theme_path current_path w :
  I w → I (get_chromium_theme_path chromium_theme_path current_path w).2.
Proof.
  intros Hw. unfold get_chromium_theme_path, file_exists.
  destruct (snprintf_werr _ _ _) as [? ?]. case_decide; [|done].
  destruct (w_fopen w _); simpl; auto.
Qed.

Lemma inv_fatal {A} (P : A → Prop) context en err w :
  I w → ends_in P I (clean_exit err (send_msg E None (Some context) en w)).
Proof. intros Hw. eexists. split; [by apply I_error|done]. Qed.

Lemma inv_reread path theme w :
  theme_ok theme → I w → ends_in theme_ok I (reread E path theme w).
Proof.
  intros Htheme Hw. unfold reread.
  pose proof (theme_ok_get_chromium_theme E theme path w Htheme) as Ht.
  pose proof (inv_get_chromium_theme theme path w Hw) as Hw'.
  destruct (get_chromium_theme E theme path w) as [[r theme'] w'].
  simpl in Ht, Hw'. case_decide.
  - split; [done|]. by apply I_rgb.
  - by apply inv_fatal.
Qed.

Lemma inv_events path buf n off theme w :
  theme_ok theme → I w → ends_in theme_ok I (events E path buf n off theme w).
Proof.
  funelim (events E path buf n off theme w); intros Htheme Hw; try done.
  - match goal with
    | Heq : (if qualifies _ _ then _ else _) = Running _ _ |- _ =>
        rename Heq into Hstep
    end.
    match goal with
    | IH : theme_ok _ → I _ → _ |- _ => apply IH
    end.
    all: destruct (qualifies buf off);
      [ pose proof (inv_reread path chromium_theme w Htheme Hw) as Hr;
        rewrite Hstep in Hr; apply Hr
      | by simplify_eq ].
  - match goal with
    | Heq : (if qualifies _ _ then _ else _) = Exited _ _ |- _ =>
        rename Heq into Hstep
    end.
    destruct (qualifies buf off); [|done].
    pose proof (inv_reread path chromium_theme w Htheme Hw) as Hr.
    by rewrite Hstep in Hr.
Qed.

Lemma inv_steady path inputs buf theme w :
  theme_ok theme → I w →
  ends_in (λ _, True) I (steady E path inputs buf theme w).
Proof.
  revert buf theme w.
  induction inputs as [|[fs|e|bytes] inputs IH]; intros buf theme w Htheme Hw.
  - done.
  - apply IH; auto.
  - cbn [steady]. cbv zeta. case_decide; [apply IH; auto|].
    apply inv_fatal; auto.
  - cbn [steady]. cbv zeta.
    destruct (length (take INOTIFY_BUF_LEN bytes) =? 0); [by apply IH|].
    unfold mbind, M_bind.
    pose proof (inv_events path
      (take INOTIFY_BUF_LEN bytes
         ++ drop (length (take INOTIFY_BUF_LEN bytes)) buf)
      (length (take INOTIFY_BUF_LEN bytes)) 0 theme w Htheme Hw) as Hev.
    destruct (events _ _ _ _ _ _ _) as [theme' w'|st w']; [|done].
    destruct Hev. by apply IH.
Qed.

Hypothesis I_no_fd : ∀ w, I w → I (set_notify_fd (-1) w).
Hypothesis I_fd : ∀ w, I w → I (set_notify_fd (Z.of_nat (env_notify_fd E)) w).

(** A property of the world that the steps of the program keep holds
    wherever [main] has got to. *)
Lemma inv_main inputs :
  I (init_world E) → ends_in (λ _, True) I (main E inputs).
Proof.
  intros Hinit. unfold main. cbv zeta.
  pose proof (inv_get_current_path (static_array STRING_MAX)
                (init_world E) Hinit) as Hcur.
  destruct (get_current_path _ _ _) as [[result current_path] w1].
  cbn [snd] in Hcur. case_decide.
  2:{ by apply inv_fatal. }
  unfold inotify_init, inotify_add_watch.
  destruct (env_inotify_init E) as [e|].
  { rewrite decide_True by done. apply inv_fatal. auto. }
  cbn [notify_fd set_notify_fd]. rewrite decide_False by lia.
  destruct (env_add_watch E (cstr current_path)) as [e|].
  { rewrite decide_True by done. apply inv_fatal. auto. }
  rewrite decide_False by done.
  pose proof (inv_get_chromium_theme_path (static_array STRING_MAX)
                current_path
                (set_notify_fd (Z.of_nat (env_notify_fd E)) w1)
                (I_fd _ Hcur)) as Hthp.
  destruct (get_chromium_theme_path _ _ _) as [[result2 theme_path] w5].
  cbn [snd] in Hthp. case_decide.
  2:{ by apply inv_fatal. }
  unfold mbind, M_bind.
  pose proof (inv_reread (cstr theme_path)
                (static_array CHROMIUM_THEME_MAX) w5 theme_ok_static Hthp) as Hrr.
  destruct (reread _ _ _ _) as [theme w6|st w6]; [|done].
  destruct Hrr. by apply inv_steady.
Qed.
End RunInvariant.

(** ** The notification descriptor *)



(** ** The first message *)

Lemma first_send E rgb err en w :
  healthy w → w_stdout w = [] →
  w_stdout (send_msg E rgb err en w)
  = if decide (length (body_of E rgb err en) < MSG_MAX)
    then frame (body_of E rgb err en) else [].
Proof.
  intros (Hbuf & Hws & _) Hout.
  destruct (send_msg_succeeds E rgb err en w Hbuf Hws) as (_ & _ & _ & ->).
  by rewrite Hout.
Qed.

Lemma stdout_clean_exit {A} err w :
  w_stdout (final_world (clean_exit (A:=A) err w)) = w_stdout w.
Proof. unfold clean_exit. simpl. by destruct (0 <=? notify_fd w)%Z. Qed.

Lemma first_fatal E context en w :
  healthy w → w_stdout w = [] →
  w_errno (send_msg E None (Some context) en w) = w_errno w
  ∧ w_stdout (closing (send_msg E None (Some context) en w))
    = if decide (length (body_of E None (Some context) en) < MSG_MAX)
      then frame (body_of E None (Some context) en) else [].
Proof.
  intros Hw Hout. split; [by apply send_msg_quiet|].
  rewrite <- (first_send E None (Some context) en w Hw Hout).
  unfold closing. by destruct (0 <=? notify_fd _)%Z.
Qed.

Lemma first_colour E theme w :
  healthy w → w_stdout w = [] → length (cstr theme) ≤ 11 →
  w_stdout (send_msg E (Some theme) None 0 w) = frame (fmt_rgb (cstr theme)).
Proof.
  intros Hw Hout Hlen.
  rewrite (first_send E (Some theme) None 0 w Hw Hout). cbn [body_of].
  rewrite decide_True; [done|]. rewrite length_fmt_rgb. unfold MSG_MAX. lia.
Qed.

(** The first reading of the theme, into the zeroed array. *)
Lemma first_reread E path w :
  healthy w → w_stdout w = [] →
  match reread E path (static_array CHROMIUM_THEME_MAX) w with
  | Running _ w' =>
      ∃ content,
        w_fopen w path = Content content
        ∧ w_stdout w'
          = frame (fmt_rgb
                     (take 11 (filter (λ c, digit_or_comma c)
                                 (cstr (take 255 (first_line content))))))
  | Exited st w' =>
      st ≠ 0%Z
      ∧ w_stdout w'
        = if decide
               (length
                  (body_of E None
                     (Some (lit "could not read chromium.theme to string")) st)
                < MSG_MAX)
          then frame
                 (body_of E None
                    (Some (lit "could not read chromium.theme to string")) st)
          else []
  end.
Proof.
  intros Hw Hout. unfold reread.
  destruct (w_fopen w path) as [e|e|[|c0 s0]] eqn:Hopen.
  - rewrite (get_chromium_theme_open_fails _ _ _ _ _ Hopen).
    rewrite decide_False by done. unfold clean_exit. cbv beta iota zeta.
    split; [done|].
    by apply (first_fatal E _ (Zpos e) (set_errno (Zpos e) w)).
  - rewrite (get_chromium_theme_read_fails _ _ _ _ _ Hopen).
    rewrite decide_False by done. unfold clean_exit. cbv beta iota zeta.
    split; [done|].
    by apply (first_fatal E _ (Zpos e) (set_errno (Zpos e) w)).
  - unfold get_chromium_theme. rewrite Hopen. case_decide as Herr.
    + exists []. split; [done|].
      assert (Hnil : take 11 (filter (λ c, digit_or_comma c)
                                (cstr (take 255 (first_line []))))
                     = cstr (static_array CHROMIUM_THEME_MAX))
        by (by vm_compute).
      rewrite Hnil. apply first_colour; [done..|]. vm_compute. lia.
    + unfold clean_exit. cbv beta iota zeta. split; [done|].
      by apply (first_fatal E _ (w_errno w) w).
  - rewrite (get_chromium_theme_content E _ path w (c0 :: s0)) by done.
    rewrite decide_True by done. exists (c0 :: s0). split; [done|].
    destruct (store_kept (static_array CHROMIUM_THEME_MAX)
                (cstr (take 255 (first_line (c0 :: s0)))))
      as [_ Hkept]; [reflexivity|].
    rewrite <- Hkept at 2. apply first_colour; [done..|].
    rewrite Hkept, length_take. lia.
Qed.

(** X19. The consumer always gets exactly one message to begin with.
    When every write and flush succeeds and no notification has arrived,
    then either the program is running and standard output is exactly
    one frame, the colour body made of the digits and commas of the
    first line of a file (at most 255 bytes of the line, up to a NUL,
    and at most 11 characters); or the program has exited at startup
    with a nonzero status, and standard output is exactly the frame of
    one of the error messages of [main] made for that status, or is
    empty if that message would exceed the message size. *)
Theorem main_first_message (E : env) :
  writes_succeed (env_writes E) →
  match main E [] with
  | Running _ w =>
      ∃ path content,
        env_fopen E path = Content content
        ∧ w_stdout w
          = frame (fmt_rgb
                     (take 11 (filter (λ c, digit_or_comma c)
                                 (cstr (take 255 (first_line content))))))
  | Exited st w =>
      st ≠ 0%Z
      ∧ ∃ context,
          context ∈ fatal_contexts
          ∧ w_stdout w
            = if decide (length (body_of E None (Some context) st) < MSG_MAX)
              then frame (body_of E None (Some context) st) else []
  end.
Proof.
  intros Hws.
  pose (I := λ w : world,
    healthy w ∧ w_stdout w = [] ∧ w_fopen w = env_fopen E).
  assert (Herrno : ∀ e w, I w → I (set_errno e w)) by (by intros e w (? & ? & ?)).
  assert (Hinit : I (init_world E))
    by (by split; [apply healthy_init_world|]).
  unfold main. cbv zeta.
  pose proof (inv_get_current_path E I Herrno (static_array STRING_MAX)
                (init_world E) Hinit) as Hcur.
  destruct (get_current_path _ _ _) as [[result current_path] w1].
  cbn [snd] in Hcur. destruct Hcur as (Hw1 & Hout1 & Hfs1). case_decide.
  2:{ unfold clean_exit. cbv beta iota zeta. split; [done|].
      refine (ex_intro _ _
                (conj _ (proj2 (first_fatal E _ result w1 Hw1 Hout1))));
        known_context. }
  unfold inotify_init, inotify_add_watch.
  destruct (env_inotify_init E) as [e|].
  { rewrite decide_True by done.
    destruct (first_fatal E (lit "could not init inotify") (Zpos e)
                (set_notify_fd (-1) (set_errno (Zpos e) w1)) Hw1 Hout1)
      as [Herr Hsent].
    change (w_errno (set_notify_fd (-1) (set_errno (Zpos e) w1)))
      with (Zpos e) in *.
    rewrite Herr.
    unfold clean_exit. cbv beta iota zeta. split; [done|].
    refine (ex_intro _ _ (conj _ Hsent)); known_context. }
  cbn [notify_fd set_notify_fd]. rewrite decide_False by lia.
  destruct (env_add_watch E (cstr current_path)) as [e|].
  { rewrite decide_True by done.
    destruct (first_fatal E
                (lit "could not watch directory '~/.config/omarchy/current'")
                (Zpos e)
                (set_errno (Zpos e)
                   (set_notify_fd (Z.of_nat (env_notify_fd E)) w1)) Hw1 Hout1)
      as [Herr Hsent].
    change (w_errno (set_errno (Zpos e)
                       (set_notify_fd (Z.of_nat (env_notify_fd E)) w1)))
      with (Zpos e) in *.
    rewrite Herr.
    unfold clean_exit. cbv beta iota zeta. split; [done|].
    refine (ex_intro _ _ (conj _ Hsent)); known_context. }
  rewrite decide_False by done.
  pose proof (inv_get_chromium_theme_path I Herrno (static_array STRING_MAX)
                current_path
                (set_notify_fd (Z.of_nat (env_notify_fd E)) w1)
                (conj (healthy_set_notify_fd _ _ Hw1) (conj Hout1 Hfs1)))
    as Hthp.
  destruct (get_chromium_theme_path _ _ _) as [[result2 theme_path] w5].
  cbn [snd] in Hthp. destruct Hthp as (Hw5 & Hout5 & Hfs5). case_decide.
  2:{ unfold clean_exit. cbv beta iota zeta. split; [done|].
      refine (ex_intro _ _
                (conj _ (proj2 (first_fatal E _ result2 w5 Hw5 Hout5))));
        known_context. }
  unfold mbind, M_bind.
  pose proof (first_reread E (cstr theme_path) w5 Hw5 Hout5) as Hread.
  destruct (reread _ _ _ _) as [theme w6|st w6].
  - cbn [steady]. unfold mret, M_ret.
    destruct Hread as (content & Hopen & Hsent).
    exists (cstr theme_path), content. by rewrite <- Hfs5.
  - destruct Hread as [Hst Hsent]. split; [done|].
    refine (ex_intro _ _ (conj _ Hsent)); known_context.
Qed.

Lemma main_first_message_witness :
  match main (Demo.E (Content (lit "23,43,67" ++ [x0a]))) [] with
  | Running _ w =>
      ∃ path content,
        env_fopen (Demo.E (Content (lit "23,43,67" ++ [x0a]))) path
        = Content content
        ∧ w_stdout w
          = frame (fmt_rgb
                     (take 11 (filter (λ c, digit_or_comma c)
                                 (cstr (take 255 (first_line content))))))
  | Exited st w =>
      st ≠ 0%Z
      ∧ ∃ context,
          context ∈ fatal_contexts
          ∧ w_stdout w
            = if decide
                   (length
                      (body_of (Demo.E (Content (lit "23,43,67" ++ [x0a])))
                         None (Some context) st) < MSG_MAX)
              then frame
                     (body_of (Demo.E (Content (lit "23,43,67" ++ [x0a])))
                        None (Some context) st)
              else []
  end.
Proof.
  refine (main_first_message (Demo.E (Content (lit "23,43,67" ++ [x0a]))) _).
  by apply Forall_nil.
Defined.

(** The two ways a startup can go, on a theme file and without one. *)
Example main_first_message_example :
  main (Demo.E (Content (lit "23,43,67" ++ [x0a]))) []
  = Running tt
      (final_world (main (Demo.E (Content (lit "23,43,67" ++ [x0a]))) []))
  ∧ w_stdout
      (final_world (main (Demo.E (Content (lit "23,43,67" ++ [x0a]))) []))
    = frame (fmt_rgb (lit "23,43,67"))
  ∧ exit_status (main (Demo.E (OpenFails Demo.ENOENT)) []) = Some 2%Z.
Proof. vm_compute. done. Qed.

(** ** The stream as the consumer reads it *)

Lemma read_frames_frames (bodies : list (list byte)) (fuel : nat) :
  Forall (λ b, length b < MSG_MAX) bodies → length bodies ≤ fuel →
  read_frames fuel (concat (map frame bodies)) = Some bodies.
Proof.
  intros Hsized. revert fuel.
  induction Hsized as [|b bodies Hb _ IH]; intros fuel Hfuel.
  { by destruct fuel. }
  destruct fuel as [|fuel]; simpl in Hfuel; [lia|].
  cbn [map concat].
  assert (Hne : ∃ c s, frame b ++ concat (map frame bodies) = c :: s)
    by (by eexists _, _).
  destruct Hne as (c & s & Hne). rewrite Hne. cbn [read_frames].
  rewrite <- Hne, read_frame_frame by done.
  by rewrite IH by lia.
Qed.

Lemma length_frames (bodies : list (list byte)) :
  length bodies ≤ length (concat (map frame bodies)).
Proof.
  induction bodies as [|b bodies IH]; simpl; [done|].
  rewrite !length_app. simpl. lia.
Qed.

(** X20. In every run in which the writes succeed, the consumer can
    take standard output apart again: reading a 4-byte little-endian
    length and then that many bytes, over and over, uses up the stream
    exactly and yields the bodies sent, each shorter than 512 bytes and
    of one of the two normal shapes. *)
Theorem main_stream_parses (E : env) (inputs : list input) :
  writes_succeed (env_writes E) →
  ∃ bodies,
    read_frames (length (w_stdout (final_world (main E inputs))))
      (w_stdout (final_world (main E inputs))) = Some bodies
    ∧ Forall normal_body bodies
    ∧ Forall (λ b, length b < MSG_MAX) bodies.
Proof.
  intros Hws.
  pose (I := λ w : world,
    buffers_ok w ∧ writes_succeed (w_writes w)
    ∧ ∃ bodies, w_stdout w = concat (map frame bodies)
                ∧ Forall normal_body bodies
                ∧ Forall (λ b, length b < MSG_MAX) bodies).
  assert (Hsend : ∀ rgb err en w,
            normal_body (body_of E rgb err en) → I w →
            I (send_msg E rgb err en w)).
  { intros rgb err en w Hbody (Hbuf & Hw & bodies & Hout & Hnormal & Hsized).
    destruct (send_msg_succeeds E rgb err en w Hbuf Hw)
      as (Hbuf' & Hw' & _ & Hsent).
    split; [done|]. split; [done|]. rewrite Hsent.
    case_decide.
    - exists (bodies ++ [body_of E rgb err en]). split.
      + rewrite Hout, map_app, concat_app. simpl. by rewrite app_nil_r.
      + split; apply Forall_app; (split; [done|by constructor]).
    - exists bodies. by rewrite app_nil_r. }
  pose proof (inv_main E I) as Hmain.
  specialize (Hmain ltac:(by intros e w (? & ? & ?))).
  specialize (Hmain ltac:(by intros fs w (? & ? & ?))).
  specialize (Hmain ltac:(intros; by apply Hsend; [apply normal_body_rgb|])).
  specialize (Hmain ltac:(intros; by apply Hsend; [apply normal_body_error|])).
  specialize (Hmain ltac:(by intros w (? & ? & ?))).
  specialize (Hmain ltac:(by intros w (? & ? & ?))).
  specialize (Hmain inputs).
  assert (Hfinal : I (final_world (main E inputs))
                   ∨ ∃ w0, I w0 ∧ w_stdout (final_world (main E inputs))
                                  = w_stdout w0).
  { destruct (main E inputs) as [[] w|st w]; cbn [ends_in final_world] in *.
    - left. apply Hmain. split; [by repeat split|]. split; [done|].
      by exists [].
    - right. destruct Hmain as (w0 & Hw0 & ->).
      { split; [by repeat split|]. split; [done|]. by exists []. }
      exists w0. split; [done|]. unfold closing.
      by destruct (0 <=? notify_fd w0)%Z. }
  assert (Hout : ∃ bodies,
            w_stdout (final_world (main E inputs)) = concat (map frame bodies)
            ∧ Forall normal_body bodies
            ∧ Forall (λ b, length b < MSG_MAX) bodies).
  { destruct Hfinal as [(_ & _ & Hb)|(w0 & (_ & _ & Hb) & ->)]; exact Hb. }
  destruct Hout as (bodies & -> & Hnormal & Hsized).
  exists bodies. split; [|done].
  apply read_frames_frames; [done | apply length_frames].
Qed.

Lemma main_stream_parses_witness :
  ∃ bodies,
    read_frames
      (length (w_stdout (final_world
         (main (Demo.E (Content (lit "1,2,3")))
            [FsChange (Demo.fs (Content (lit "4,5,6")));
             ReadBytes (Demo.record IN_MOVED_TO (lit "theme") 11)]))))
      (w_stdout (final_world
         (main (Demo.E (Content (lit "1,2,3")))
            [FsChange (Demo.fs (Content (lit "4,5,6")));
             ReadBytes (Demo.record IN_MOVED_TO (lit "theme") 11)])))
    = Some bodies
    ∧ Forall normal_body bodies
    ∧ Forall (λ b, length b < MSG_MAX) bodies.
Proof.
  refine (main_stream_parses (Demo.E (Content (lit "1,2,3")))
    [FsChange (Demo.fs (Content (lit "4,5,6")));
     ReadBytes (Demo.record IN_MOVED_TO (lit "theme") 11)] _).
  by apply Forall_nil.
Defined.

(** ** Reading and reporting, end to end *)

(** X21. As long as every [fwrite] and [fflush] of standard output
    succeeds, every exit of the program, at startup or later, has a
    nonzero error number as its status, and standard output ends with
    the report of that very exit: it is a sequence of frames of colour
    and error bodies followed by the frame of one of the six error
    messages of [main], made for the number that is the exit status
    (by nothing, if that message would exceed the message size and was
    dropped). *)
Theorem main_exit_status_reported (E : env) (inputs : list input)
    (st : Z) (w : world) :
  writes_succeed (env_writes E) → main E inputs = Exited st w →
  st ≠ 0%Z
  ∧ ∃ context bodies,
      context ∈ fatal_contexts
      ∧ Forall normal_body bodies
      ∧ w_stdout w
        = concat (map frame bodies)
          ++ (if decide (length (body_of E None (Some context) st) < MSG_MAX)
              then frame (body_of E None (Some context) st) else []).
Proof.
  intros Hws Hrun. pose proof (main_exit_reported E inputs Hws) as Hrep.
  rewrite Hrun in Hrep.
  destruct Hrep as (Hst & context & before & Hctx & (bodies & -> & Hbodies) & Hout).
  split; [done|]. by exists context, bodies.
Qed.

Lemma main_exit_status_reported_witness :
  2%Z ≠ 0%Z
  ∧ ∃ context bodies,
      context ∈ fatal_contexts
      ∧ Forall normal_body bodies
      ∧ w_stdout
          (final_world
             (main (Demo.E (Content (lit "23,43,67" ++ [x0a])))
                [FsChange (Demo.fs (OpenFails Demo.ENOENT));
                 ReadBytes (Demo.record IN_MOVED_TO (lit "theme") 11)]))
        = concat (map frame bodies)
          ++ (if decide
                   (length
                      (body_of (Demo.E (Content (lit "23,43,67" ++ [x0a])))
                         None (Some context) 2) < MSG_MAX)
              then frame
                     (body_of (Demo.E (Content (lit "23,43,67" ++ [x0a])))
                        None (Some context) 2)
              else []).
Proof.
  refine (main_exit_status_reported
            (Demo.E (Content (lit "23,43,67" ++ [x0a])))
            [FsChange (Demo.fs (OpenFails Demo.ENOENT));
             ReadBytes (Demo.record IN_MOVED_TO (lit "theme") 11)] 2
            (final_world
               (main (Demo.E (Content (lit "23,43,67" ++ [x0a])))
                  [FsChange (Demo.fs (OpenFails Demo.ENOENT));
                   ReadBytes (Demo.record IN_MOVED_TO (lit "theme") 11)])) _ _).
  - by apply Forall_nil.
  - vm_compute. reflexivity.
Defined.

(** X22. When the theme file cannot be opened or read at the moment the
    program goes to read it, the program exits with the error number of
    that failure whether or not its message can be written; when the
    writes succeed the message sent last is the error
    [could not read chromium.theme to string: ] followed by the system's
    text for that number. *)
Theorem reread_file_error (E : env) (path chromium_theme : list byte)
    (w : world) (e : positive) :
  w_fopen w path = OpenFails e ∨ w_fopen w path = ReadFails e →
  ∃ w',
    reread E path chromium_theme w = Exited (Zpos e) w'
    ∧ (healthy w →
       length (fmt_error (lit "could not read chromium.theme to string")
                 (escaped (env_strerror E (Zpos e)))) < MSG_MAX →
       w_stdout w'
       = w_stdout w
         ++ frame (fmt_error (lit "could not read chromium.theme to string")
                     (escaped (env_strerror E (Zpos e))))).
Proof.
  intros Hopen. unfold reread.
  assert (Hread : get_chromium_theme E chromium_theme path w
                  = (Zpos e, chromium_theme, set_errno (Zpos e) w)).
  { destruct Hopen as [Hopen|Hopen];
      [by apply get_chromium_theme_open_fails
      |by apply get_chromium_theme_read_fails]. }
  rewrite Hread. rewrite decide_False by done.
  eexists. split; [reflexivity|]. intros Hw Hfits.
  destruct (send_msg_quiet E None
              (Some (lit "could not read chromium.theme to string")) (Zpos e)
              (set_errno (Zpos e) w) (healthy_set_errno _ _ Hw)) as [_ Hsent].
  assert (Hbody : body_of E None
                    (Some (lit "could not read chromium.theme to string"))
                    (Zpos e)
                  = fmt_error (lit "could not read chromium.theme to string")
                      (escaped (env_strerror E (Zpos e)))) by reflexivity.
  rewrite Hbody in Hsent.
  destruct (0 <=? notify_fd _)%Z; cbn [close w_stdout]; by apply Hsent.
Qed.

Lemma reread_file_error_witness :
  ∃ w',
    reread (Demo.E (OpenFails Demo.ENOENT)) Demo.theme_path
      (static_array CHROMIUM_THEME_MAX)
      (init_world (Demo.E (OpenFails Demo.ENOENT)))
    = Exited 2 w'
    ∧ (healthy (init_world (Demo.E (OpenFails Demo.ENOENT))) →
       length (fmt_error (lit "could not read chromium.theme to string")
                 (escaped (env_strerror (Demo.E (OpenFails Demo.ENOENT)) 2)))
       < MSG_MAX →
       w_stdout w'
       = w_stdout (init_world (Demo.E (OpenFails Demo.ENOENT)))
         ++ frame (fmt_error (lit "could not read chromium.theme to string")
                     (escaped (env_strerror (Demo.E (OpenFails Demo.ENOENT))
                                 2)))).
Proof.
  refine (reread_file_error (Demo.E (OpenFails Demo.ENOENT)) Demo.theme_path
            (static_array CHROMIUM_THEME_MAX)
            (init_world (Demo.E (OpenFails Demo.ENOENT))) Demo.ENOENT _).
  left. reflexivity.
Defined.

(** X23. When the theme file starts with a line of at most 11 digits
    and commas ended by a newline and the next two writes succeed, the
    program goes on running with that line as its colour, and what it
    appends to standard output is exactly the frame of the body with
    [rgb] set to the array holding that line and [error] null. *)
Theorem reread_well_formed_line (E : env) (path chromium_theme : list byte)
    (w : world) (s rest : list byte) :
  w_fopen w path = Content (s ++ x0a :: rest) →
  Forall (λ c, digit_or_comma c) s → length s ≤ 11 →
  length chromium_theme = CHROMIUM_THEME_MAX → buffers_ok w →
  Forall (λ o, o = None) (take 2 (w_writes w)) →
  ∃ theme' w',
    reread E path chromium_theme w = Running theme' w'
    ∧ cstr theme' = s
    ∧ w_stdout w' = w_stdout w ++ frame (fmt_rgb s)
    ∧ w_stderr w' = w_stderr w.
Proof.
  intros Hopen Hs Hlen Htheme Hbuf Hws. unfold reread.
  rewrite (get_chromium_theme_content E chromium_theme path w _ Hopen)
    by (by destruct s).
  rewrite kept_of_well_formed_line by done.
  rewrite decide_True by done.
  assert (Hlen' : length (store chromium_theme s) = CHROMIUM_THEME_MAX)
    by (by rewrite length_store).
  assert (Hstr : cstr (store chromium_theme s) = s).
  { apply cstr_store; [unfold CHROMIUM_THEME_MAX in Htheme; lia|].
    intros Hin. apply (kept_no_nul s Hs), elem_of_app. by left. }
  destruct (send_msg_colour E (store chromium_theme s) w Hbuf Hlen' Hws)
    as [Hout Herr].
  rewrite Hstr in Hout. by eexists _, _.
Qed.

Lemma reread_well_formed_line_witness :
  ∃ theme' w',
    reread (Demo.E (Content (lit "23,43,67" ++ x0a :: []))) Demo.theme_path
      (static_array CHROMIUM_THEME_MAX)
      (init_world (Demo.E (Content (lit "23,43,67" ++ x0a :: []))))
    = Running theme' w'
    ∧ cstr theme' = lit "23,43,67"
    ∧ w_stdout w'
      = w_stdout (init_world (Demo.E (Content (lit "23,43,67" ++ x0a :: []))))
        ++ frame (fmt_rgb (lit "23,43,67"))
    ∧ w_stderr w'
      = w_stderr (init_world (Demo.E (Content (lit "23,43,67" ++ x0a :: [])))).
Proof.
  refine (reread_well_formed_line
    (Demo.E (Content (lit "23,43,67" ++ x0a :: []))) Demo.theme_path
    (static_array CHROMIUM_THEME_MAX)
    (init_world (Demo.E (Content (lit "23,43,67" ++ x0a :: []))))
    (lit "23,43,67") [] _ _ _ _ _ _).
  - reflexivity.
  - repeat (apply Forall_cons; split; [exact I|]). by apply Forall_nil.
  - vm_compute. lia.
  - reflexivity.
  - repeat split; reflexivity.
  - by apply Forall_nil.
Defined.
